(** * serverless-s3-local: bucket resolution and start/stop orchestration

    A shallow embedding of [src/index.js] (class [ServerlessS3Local]) and the
    properties of its configuration merge, bucket resolver and emulator
    lifecycle.

    The plugin is untyped JavaScript driven by YAML and command-line data, so
    the embedding keeps JavaScript values as they are: truthiness, [&&], [||],
    [===], property reads that throw on [null] / [undefined], own-property
    iteration order.  Synchronous code is written in an error monad whose
    failures are thrown values; the one object the plugin mutates in place (the
    template's resource mapping) is threaded through explicitly; the
    asynchronous part (emulator start-up, create-bucket promises) is driven by
    an environment record and leaves a trace of events. *)

From Stdlib Require Import String Ascii List ZArith NArith Lia Bool.
From Stdlib Require Import DecimalNat DecimalString.
Import ListNotations.
Open Scope string_scope.

Set Warnings "-register-all".

(* ===================================================================== *)
(** * JavaScript values *)
(* ===================================================================== *)

(** Numbers are restricted to integers (ports, indices); arrays are dense, as
    YAML, JSON and the argument parser produce them.  An object is its list of
    own enumerable properties in creation order; when a key occurs twice in
    the list the first binding is the property and the others are never seen
    by any operation below, so every list denotes an object. *)
Inductive value : Type :=
| VUndefined
| VNull
| VBool (b : bool)
| VNum (n : Z)
| VStr (s : string)
| VArr (elems : list value)
| VObj (props : list (string * value)).

Definition props := list (string * value).

(** Synchronous code either returns or throws a value. *)
Inductive result (A : Type) : Type :=
| Ok (a : A)
| Throw (e : value).
Arguments Ok {A} a.
Arguments Throw {A} e.

Definition bind {A B} (m : result A) (f : A -> result B) : result B :=
  match m with
  | Ok a => f a
  | Throw e => Throw e
  end.

Notation "x <- m ;; k" := (bind m (fun x => k))
  (at level 61, m at next level, right associativity).

(** [forEach] / [map] with a callback that may throw: the first throw ends
    the loop. *)
Fixpoint mapM {A B} (f : A -> result B) (l : list A) : result (list B) :=
  match l with
  | [] => Ok []
  | a :: r =>
      b <- f a ;;
      bs <- mapM f r ;;
      Ok (b :: bs)
  end.

(** The [TypeError] the runtime raises on [null.x], [undefined.x], a call of a
    non-function, or a write to a property of a primitive in strict code. *)
Definition TypeError : value := VObj [("name", VStr "TypeError")].

(** ToBoolean. *)
Definition truthy (v : value) : bool :=
  match v with
  | VUndefined | VNull => false
  | VBool b => b
  | VNum n => negb (n =? 0)%Z
  | VStr s => negb (s =? "")
  | VArr _ | VObj _ => true
  end.

(** [a || b] and [a && b] on already evaluated operands. *)
Definition js_or (a b : value) : value := if truthy a then a else b.
Definition js_and (a b : value) : value := if truthy a then b else a.

(** [a && <b>] where evaluating [b] may throw: [b] is not evaluated when [a]
    is falsy. *)
Definition js_and_then (a : value) (b : result value) : result value :=
  if truthy a then b else Ok a.

(** [v === 'literal']. *)
Definition strict_eq_str (v : value) (s : string) : bool :=
  match v with
  | VStr t => t =? s
  | _ => false
  end.

Definition is_nullish (v : value) : bool :=
  match v with
  | VUndefined | VNull => true
  | _ => false
  end.

(* --------------------------------------------------------------------- *)
(** ** Decimal strings and array indices *)

Definition string_of_nat (n : nat) : string :=
  NilZero.string_of_uint (Nat.to_uint n).

Definition string_of_Z (z : Z) : string :=
  NilZero.string_of_int (Z.to_int z).

Definition digit (c : ascii) : option N :=
  let n := N_of_ascii c in
  if ((48 <=? n) && (n <=? 57))%N then Some (n - 48)%N else None.

Fixpoint digits_value (acc : N) (s : string) : option N :=
  match s with
  | EmptyString => Some acc
  | String c r =>
      match digit c with
      | Some d => digits_value (10 * acc + d)%N r
      | None => None
      end
  end.

(** A property key is an array index when it is the canonical decimal form of
    an integer below 2^32 - 1: such keys come first, in ascending numeric
    order, when the own keys of an object are listed. *)
Definition array_index (k : string) : option N :=
  match k with
  | EmptyString => None
  | String c r =>
      if (Ascii.eqb c "0"%char && negb (r =? ""))%bool then None
      else match digits_value 0%N k with
           | Some n => if (n <? 4294967295)%N then Some n else None
           | None => None
           end
  end.

Definition is_index (k : string) : bool :=
  match array_index k with
  | Some _ => true
  | None => false
  end.

(* --------------------------------------------------------------------- *)
(** ** Own properties *)

Fixpoint lookup (k : string) (o : props) : option value :=
  match o with
  | [] => None
  | (k', v) :: r => if k' =? k then Some v else lookup k r
  end.

(** [o[k]] on the property list of an object: [undefined] when absent. *)
Definition get_own (o : props) (k : string) : value :=
  match lookup k o with
  | Some v => v
  | None => VUndefined
  end.

(** [o[k] = v]: an existing property keeps its place, a new one is created
    last.  This is what a JavaScript write does for every key but one: a write
    to [__proto__] on an object that has no own property of that name reaches
    the accessor of [Object.prototype] and replaces the object's prototype
    instead of creating a property.  Values here carry no prototype, so a
    write to that key is outside what [obj_set] describes; the theorems that
    rest on the laws of [obj_set] are stated for writes to other keys. *)
Fixpoint obj_set (o : props) (k : string) (v : value) : props :=
  match o with
  | [] => [(k, v)]
  | (k', v') :: r =>
      if k' =? k then (k', v) :: r else (k', v') :: obj_set r k v
  end.

(** First occurrences of the keys, in order. *)
Fixpoint uniq (ks : list string) : list string :=
  match ks with
  | [] => []
  | k :: r => k :: filter (fun k' => negb (k' =? k)) (uniq r)
  end.

Fixpoint insert_index (n : N) (k : string) (l : list (N * string))
  : list (N * string) :=
  match l with
  | [] => [(n, k)]
  | (m, k') :: r =>
      if (n <=? m)%N then (n, k) :: l else (m, k') :: insert_index n k r
  end.

Definition sorted_indices (ks : list string) : list string :=
  map snd
    (fold_right
       (fun k acc =>
          match array_index k with
          | Some n => insert_index n k acc
          | None => acc
          end) [] ks).

(** OrdinaryOwnPropertyKeys: array indices ascending, then the other string
    keys in creation order. *)
Definition own_keys (o : props) : list string :=
  let ks := uniq (map fst o) in
  sorted_indices ks ++ filter (fun k => negb (is_index k)) ks.

Fixpoint indexed_from (i : nat) (l : list value) : props :=
  match l with
  | [] => []
  | v :: r => (string_of_nat i, v) :: indexed_from (S i) r
  end.

(** The index properties of an array. *)
Definition indexed (l : list value) : props := indexed_from 0 l.

Fixpoint chars (s : string) : list value :=
  match s with
  | EmptyString => []
  | String c r => VStr (String c EmptyString) :: chars r
  end.

(** Own enumerable properties of a value as [Object.keys] and [Object.assign]
    enumerate them (after ToObject; numbers and booleans have none). *)
Definition own_props (v : value) : props :=
  match v with
  | VObj o => map (fun k => (k, get_own o k)) (own_keys o)
  | VArr l => indexed l
  | VStr s => indexed (chars s)
  | _ => []
  end.

(** [Object.keys(v)]: throws on [null] and [undefined]. *)
Definition Object_keys (v : value) : result (list string) :=
  if is_nullish v then Throw TypeError else Ok (map fst (own_props v)).

(** [v.k] / [v[k]] for the data properties the plugin reads.  Properties
    inherited from the built-in prototypes are not modelled: none of the
    literal names the plugin reads exists there, and computed names are always
    own keys of the object they are read from. *)
Definition get_prop (v : value) (k : string) : result value :=
  match v with
  | VUndefined | VNull => Throw TypeError
  | VObj o => Ok (get_own o k)
  | VArr l =>
      if k =? "length" then Ok (VNum (Z.of_nat (length l)))
      else Ok (get_own (indexed l) k)
  | VStr s =>
      if k =? "length" then Ok (VNum (Z.of_nat (String.length s)))
      else Ok (get_own (indexed (chars s)) k)
  | VBool _ | VNum _ => Ok VUndefined
  end.

(** [target[k] = v] in strict code (class bodies are strict).  Primitives
    reject the write with a [TypeError].  A write to an array is carried out
    on its property list: afterwards the value is only ever read through its
    own keys, for which an array with extra properties and the object with the
    same properties are indistinguishable.  The write is [obj_set]'s: it
    describes the assignment for every key other than [__proto__]. *)
Definition set_prop (target : value) (k : string) (v : value) : result value :=
  match target with
  | VObj o => Ok (VObj (obj_set o k v))
  | VArr l => Ok (VObj (obj_set (indexed l) k v))
  | _ => Throw TypeError
  end.

(** [Object.assign(target, ...sources)]: every own enumerable property of
    every source, in order, is written to the target; [null] and [undefined]
    sources are skipped.  The writes are [obj_set]'s, so the definition
    describes the call for sources that have no own key [__proto__]. *)
Definition assign_from (t : props) (src : value) : props :=
  fold_left (fun t kv => obj_set t (fst kv) (snd kv)) (own_props src) t.

Definition Object_assign (target : props) (sources : list value) : props :=
  fold_left assign_from sources target.

(** The argument of [Array.prototype.concat]: an array is spread, anything
    else is appended as one element. *)
Definition concat_arg (v : value) : list value :=
  match v with
  | VArr l => l
  | _ => [v]
  end.

Fixpoint index_of_str (needle : string) (l : list value) (i : Z) : Z :=
  match l with
  | [] => (-1)%Z
  | v :: r => if strict_eq_str v needle then i else index_of_str needle r (i + 1)%Z
  end.

(** [v.indexOf('literal')]: arrays search by [===], strings by substring;
    other values have no such method. *)
Definition indexOf (v : value) (needle : string) : result Z :=
  match v with
  | VArr l => Ok (index_of_str needle l 0%Z)
  | VStr s =>
      match String.index 0 needle s with
      | Some n => Ok (Z.of_nat n)
      | None => Ok (-1)%Z
      end
  | _ => Throw TypeError
  end.

(** ToString, as a template literal applies it. *)
Fixpoint to_string (v : value) : string :=
  match v with
  | VUndefined => "undefined"
  | VNull => "null"
  | VBool true => "true"
  | VBool false => "false"
  | VNum n => string_of_Z n
  | VStr s => s
  | VArr l =>
      (fix join (l : list value) : string :=
         match l with
         | [] => ""
         | x :: r =>
             let sx := if is_nullish x then "" else to_string x in
             match r with
             | [] => sx
             | _ => sx ++ "," ++ join r
             end
         end) l
  | VObj _ => "[object Object]"
  end.

Definition mk_array (l : list string) : value := VArr (map VStr l).

(* ===================================================================== *)
(** * The plugin *)
(* ===================================================================== *)

(** [serverless.service], with the three sections the plugin reads.  The
    constructor stores the same object as [this.service] and reaches it again
    through [this.serverless.service]. *)
Record service : Type := {
  custom : value;
  plugins : value;
  resources : value
}.

(** What [new S3rver(...).run(cb)] returns: the running server instance, the
    object [endHandler] calls [close()] on. *)
Definition server := nat.

(** The instance fields; [client] starts as [null] (line 12). *)
Record plugin : Type := {
  svc : service;
  options : value;
  client : option server
}.

Definition constructor (s : service) (opts : value) : plugin :=
  {| svc := s; options := opts; client := None |}.

Definition bucket_type : string := "AWS::S3::Bucket".
Definition plugin_name : string := "serverless-plugin-additional-stacks".

(* --------------------------------------------------------------------- *)
(** ** getAdditionalStacks, hasAdditionalStacksPlugin (lines 121-136) *)

Definition getAdditionalStacks (s : service) : result (list value) :=
  a <- get_prop (custom s) "additionalStacks" ;;
  let serviceAdditionalStacks := js_or a (VObj []) in
  ks <- Object_keys serviceAdditionalStacks ;;
  mapM (get_prop serviceAdditionalStacks) ks.

(** [this.service] is always the service object, so the chain is decided by
    [plugins]: a falsy [plugins] makes the condition falsy, otherwise the
    result is [plugins.indexOf(name) >= 0]. *)
Definition hasAdditionalStacksPlugin (s : service) : result bool :=
  if truthy (plugins s) then
    i <- indexOf (plugins s) plugin_name ;;
    Ok (0 <=? i)%Z
  else Ok false.

(* --------------------------------------------------------------------- *)
(** ** buckets (lines 143-166) *)

(** Line 144: the local [resources] is the template's own [Resources] object
    when there is one, and a fresh empty object otherwise.  The boolean says
    which: when it is [true] every write to the local is a write to
    [service.resources.Resources]. *)
Definition resource_mapping (s : service) : result (value * bool) :=
  r <- js_and_then (resources s) (get_prop (resources s) "Resources") ;;
  if truthy r then Ok (r, true) else Ok (VObj [], false).

(** Lines 151-153, the body of the inner loop: the local mapping after it. *)
Definition merge_entry (sr : value) (key : string) (r : value) : result value :=
  e <- get_prop sr key ;;
  t <- get_prop e "Type" ;;
  if strict_eq_str t bucket_type then set_prop r key e else Ok r.

(** Lines 150-154, for one stack's [Resources] and its keys: the local
    mapping as it stands when the loop ends or throws, and what was thrown. *)
Fixpoint merge_entries (sr : value) (keys : list string) (r : value)
  : value * option value :=
  match keys with
  | [] => (r, None)
  | key :: rest =>
      match merge_entry sr key r with
      | Ok r' => merge_entries sr rest r'
      | Throw err => (r, Some err)
      end
  end.

(** Lines 148-156, one stack. *)
Definition merge_stack (stack : value) (r : value) : value * option value :=
  match get_prop stack "Resources" with
  | Throw err => (r, Some err)
  | Ok sr =>
      if truthy sr then
        match Object_keys sr with
        | Throw err => (r, Some err)
        | Ok keys => merge_entries sr keys r
        end
      else (r, None)
  end.

Fixpoint merge_stacks (stacks : list value) (r : value) : value * option value :=
  match stacks with
  | [] => (r, None)
  | stack :: rest =>
      match merge_stack stack r with
      | (r', None) => merge_stacks rest r'
      | (r', Some err) => (r', Some err)
      end
  end.

(** The callback of [map] at lines 159-164. *)
Definition bucket_name_or_null (r : value) (key : string) : result value :=
  e <- get_prop r key ;;
  t <- get_prop e "Type" ;;
  if strict_eq_str t bucket_type then
    p <- get_prop e "Properties" ;;
    n <- js_and_then p (get_prop p "BucketName") ;;
    if truthy n then Ok n else Ok VNull
  else Ok VNull.

(** Lines 158-165: [Object.keys(resources).map(...).filter(n => n)]. *)
Definition named_buckets (r : value) : result (list value) :=
  keys <- Object_keys r ;;
  names <- mapM (bucket_name_or_null r) keys ;;
  Ok (filter truthy names).

(** The template's mapping after the local has been written through. *)
Definition write_through (s : service) (r : value) : service :=
  match resources s with
  | VObj o =>
      {| custom := custom s; plugins := plugins s;
         resources := VObj (obj_set o "Resources" r) |}
  | _ => s
  end.

(** [buckets()]: the names, or the thrown error, and the service afterwards. *)
Definition buckets (s : service) : result (list value) * service :=
  match resource_mapping s with
  | Throw err => (Throw err, s)
  | Ok (r, aliased) =>
      match hasAdditionalStacksPlugin s with
      | Throw err => (Throw err, s)
      | Ok false => (named_buckets r, s)
      | Ok true =>
          match getAdditionalStacks s with
          | Throw err => (Throw err, s)
          | Ok additionalStacks =>
              let (r', thrown) := merge_stacks additionalStacks r in
              let s' := if aliased then write_through s r' else s in
              match thrown with
              | Some err => (Throw err, s')
              | None => (named_buckets r', s')
              end
          end
      end
  end.

(* ===================================================================== *)
(** * Collaborators and the trace *)
(* ===================================================================== *)

(** The options object handed to [new S3rver] (lines 78-83). *)
Record s3rver_options : Type := {
  o_port : value;
  o_hostname : value;
  o_silent : bool;
  o_directory : value;
  o_cors : value
}.

(** What the plugin does to its collaborators, and what comes back from the
    storage client, in the order it happens. *)
Inductive event : Type :=
| EnsureDirSync (path : value)
| RealpathSync (path : value)
| S3rverNew (o : s3rver_options)
| S3rverRun (h : server)
| ConsoleError (msg : string)
| ConsoleLog (msg : string)
| S3New (s3ForcePathStyle : bool) (endpoint : string)
| CliLog (msg : string)
| CreateBucket (i : nat) (Bucket : value)
| Settled (i : nat) (failure : option value)
| ServerClose (h : server).

(** The behaviour of the collaborators during one [startHandler]:
    - [ensureDirSync path] is [Some e] when the call throws [e];
    - [realpathSync path] returns the canonical path or throws;
    - [run_returns] is the server instance [run] hands back at once;
    - [run_callback] is the one invocation of the start-up callback,
      [(err, s3Host, s3Port)], or [None] when it is never invoked;
    - [settlements] lists, in order of arrival, the create-bucket promises
      that settle: [(i, None)] when the [i]-th call resolves, [(i, Some e)]
      when it rejects with [e].  A call that is not listed stays pending. *)
Record env : Type := {
  ensureDirSync : value -> option value;
  realpathSync : value -> result value;
  run_returns : server;
  run_callback : option (value * value * value);
  settlements : list (nat * option value)
}.

(** State of a promise. *)
Inductive outcome : Type :=
| Pending
| Resolved
| Rejected (reason : value).

(** Every promise settles at most once and belongs to a call that was made. *)
Definition wf_settlements (n : nat) (l : list (nat * option value)) : Prop :=
  NoDup (map fst l) /\ Forall (fun c => fst c < n) l.

(** [Promise.all] over [pending] promises, none of them settled yet: it counts
    the fulfilments as they arrive and resolves with the last one; the first
    rejection to arrive rejects it.  Returns the arrivals it has seen when it
    settles (all of them when it never does). *)
Fixpoint Promise_all (pending : nat) (arrivals : list (nat * option value))
  : list (nat * option value) * outcome :=
  match pending with
  | 0 => ([], Resolved)
  | S n =>
      match arrivals with
      | [] => ([], Pending)
      | (i, Some e) :: _ => ([(i, Some e)], Rejected e)
      | (i, None) :: rest =>
          let (seen, out) := Promise_all n rest in
          ((i, None) :: seen, out)
      end
  end.

Fixpoint create_calls (i : nat) (bs : list value) : list event :=
  match bs with
  | [] => []
  | b :: r =>
      CliLog ("creating bucket: " ++ to_string b) :: CreateBucket i b
        :: create_calls (S i) r
  end.

(** [createBuckets(port, buckets)] (lines 105-119): the events up to the
    moment the returned promise settles, and how it settles. *)
Definition createBuckets (w : env) (port : value) (bs : list value)
  : list event * outcome :=
  match bs with
  | [] => ([], Resolved)
  | _ :: _ =>
      let (seen, out) := Promise_all (length bs) (settlements w) in
      (S3New true ("http://localhost:" ++ to_string port)
         :: (create_calls 0 bs ++ map (fun c => Settled (fst c) (snd c)) seen)%list,
       out)
  end.

(* --------------------------------------------------------------------- *)
(** ** startHandler (lines 58-96) and endHandler (lines 98-103) *)

(** Lines 60-61. *)
Definition service_config (s : service) : result value :=
  c <- js_and_then (custom s) (get_prop (custom s) "s3") ;;
  Ok (js_or c (VObj [])).

Definition merge_options (opts config : value) : props :=
  Object_assign [] [opts; config].

Definition with_service (p : plugin) (s : service) : plugin :=
  {| svc := s; options := options p; client := client p |}.

Definition with_client (p : plugin) (h : server) : plugin :=
  {| svc := svc p; options := options p; client := Some h |}.

(** Line 64: [this.buckets().concat(options.buckets || [])]. *)
Definition bucket_list (named : list value) (opts : props) : list value :=
  (named ++ concat_arg (js_or (get_own opts "buckets") (VArr [])))%list.

(** The promise returned by [startHandler]: the plugin afterwards, the trace,
    and the state the promise ends in.  An exception thrown inside the
    executor rejects the promise with the thrown value. *)
Definition startHandler (w : env) (p : plugin) : plugin * list event * outcome :=
  match service_config (svc p) with
  | Throw err => (p, [], Rejected err)
  | Ok config =>
  let opts := merge_options (options p) config in
  let (named, s') := buckets (svc p) in
  let p1 := with_service p s' in
  match named with
  | Throw err => (p1, [], Rejected err)
  | Ok named =>
  let bs := bucket_list named opts in
  let port := js_or (get_own opts "port") (VNum 4569) in
  let hostname := js_or (get_own opts "host") (VStr "localhost") in
  let silent := false in
  let cors := js_or (get_own opts "cors") (VBool false) in
  if truthy (get_own opts "noStart") then
    let (tr, out) := createBuckets w port bs in
    (p1, tr, out)
  else
    let dirPath := js_or (get_own opts "directory") (VStr "./buckets") in
    match ensureDirSync w dirPath with
    | Some err => (p1, [EnsureDirSync dirPath], Rejected err)
    | None =>
    match realpathSync w dirPath with
    | Throw err => (p1, [EnsureDirSync dirPath; RealpathSync dirPath], Rejected err)
    | Ok directory =>
    let s3rver := {| o_port := port; o_hostname := hostname; o_silent := silent;
                     o_directory := directory; o_cors := cors |} in
    let p2 := with_client p1 (run_returns w) in
    let started := [EnsureDirSync dirPath; RealpathSync dirPath;
                    S3rverNew s3rver; S3rverRun (run_returns w)] in
    match run_callback w with
    | None => (p2, started, Pending)
    | Some (err, s3Host, s3Port) =>
        if truthy err then
          (p2,
           (started ++ [ConsoleError "Error occurred while starting S3 local."])%list,
           Rejected err)
        else
          let (tr, out) := createBuckets w s3Port bs in
          (p2,
           (started
              ++ ConsoleLog ("S3 local started ( port:" ++ to_string s3Port ++ " )")
              :: tr)%list,
           out)
    end
    end
    end
  end
  end.

(** [endHandler()]: the trace, and whether it returns or throws.  It reads
    [this.options], the run options as the constructor received them. *)
Definition endHandler (p : plugin) : list event * result unit :=
  match get_prop (options p) "noStart" with
  | Throw err => ([], Throw err)
  | Ok noStart =>
      if negb (truthy noStart) then
        match client p with
        | None => ([], Throw TypeError)
        | Some h => ([ServerClose h; ConsoleLog "S3 local closed"], Ok tt)
        end
      else ([], Ok tt)
  end.

(** A start / stop history of one plugin instance. *)
Inductive op : Type :=
| Start (w : env)
| Stop.

Fixpoint lifecycle (ops : list op) (p : plugin) : plugin * list event :=
  match ops with
  | [] => (p, [])
  | Start w :: rest =>
      let '(p', tr, _) := startHandler w p in
      let (p'', tr') := lifecycle rest p' in
      (p'', (tr ++ tr')%list)
  | Stop :: rest =>
      let (tr, _) := endHandler p in
      let (p'', tr') := lifecycle rest p in
      (p'', (tr ++ tr')%list)
  end.

(* ===================================================================== *)
(** * Vocabulary of the properties *)
(* ===================================================================== *)

(** ** Projections of a trace *)

Definition is_fs_call (e : event) : bool :=
  match e with
  | EnsureDirSync _ | RealpathSync _ => true
  | _ => false
  end.

Definition is_emulator_call (e : event) : bool :=
  match e with
  | S3rverNew _ | S3rverRun _ => true
  | _ => false
  end.

(** The buckets of the create-bucket calls, in the order they are issued. *)
Fixpoint created (tr : list event) : list value :=
  match tr with
  | [] => []
  | CreateBucket _ b :: r => b :: created r
  | _ :: r => created r
  end.

(** The endpoints of the storage clients constructed. *)
Fixpoint endpoints (tr : list event) : list string :=
  match tr with
  | [] => []
  | S3New _ ep :: r => ep :: endpoints r
  | _ :: r => endpoints r
  end.

(** The server instances [close()] is called on. *)
Fixpoint closed (tr : list event) : list server :=
  match tr with
  | [] => []
  | ServerClose h :: r => h :: closed r
  | _ :: r => closed r
  end.

(** ** Reading a mapping *)

(** A property read that is known not to throw. *)
Definition prop (v : value) (k : string) : value :=
  match get_prop v k with
  | Ok x => x
  | Throw _ => VUndefined
  end.

(** The keys of a mapping in iteration order, and its entries in that order. *)
Definition keys_of (r : value) : list string := map fst (own_props r).
Definition entries_of (r : value) : list value := map (prop r) (keys_of r).

(** The name an entry contributes according to the code: the entry has the
    bucket type and both [Properties] and [Properties.BucketName] are
    truthy. *)
Definition bucket_name (e : value) : option value :=
  if strict_eq_str (prop e "Type") bucket_type
     && truthy (prop e "Properties")
     && truthy (prop (prop e "Properties") "BucketName")
  then Some (prop (prop e "Properties") "BucketName")
  else None.

Fixpoint filter_map {A B} (f : A -> option B) (l : list A) : list B :=
  match l with
  | [] => []
  | a :: r =>
      match f a with
      | Some b => b :: filter_map f r
      | None => filter_map f r
      end
  end.

(** The name an entry contributes according to the specification: the entry
    has the bucket type and carries a non-empty literal (string)
    [BucketName]. *)
Definition literal_bucket_name (e : value) : option value :=
  if strict_eq_str (prop e "Type") bucket_type then
    match prop (prop e "Properties") "BucketName" with
    | VStr n => if n =? "" then None else Some (VStr n)
    | _ => None
    end
  else None.

(** The resolved sequence as the specification words it. *)
Definition spec_resolve (r : value) (explicit : list value) : list value :=
  (filter_map literal_bucket_name (entries_of r) ++ explicit)%list.

(** ** Overlaying configurations *)

(** [overlay base top]: the properties of [top], and those of [base] that
    [top] does not have; [top] wins on every colliding key. *)
Definition overlay (base top : value) (k : string) : option value :=
  match lookup k (own_props top) with
  | Some v => Some v
  | None => lookup k (own_props base)
  end.

(** ** Secondary stacks *)

(** The entry a stack's [Resources] holds under [key] when its [Type] is the
    bucket type. *)
Definition entry_if_bucket (sr : value) (key : string) : option value :=
  if strict_eq_str (prop (prop sr key) "Type") bucket_type
  then Some (prop sr key) else None.

(** The bucket-type entry a secondary stack declares under [key], if any. *)
Definition declared_bucket (stack : value) (key : string) : option value :=
  let sr := prop stack "Resources" in
  if truthy sr && existsb (String.eqb key) (keys_of sr)
  then entry_if_bucket sr key else None.

(** The entry of the last stack that declares a bucket under [key]. *)
Fixpoint secondary_entry (stacks : list value) (key : string) : option value :=
  match stacks with
  | [] => None
  | stack :: rest =>
      match secondary_entry rest key with
      | Some e => Some e
      | None => declared_bucket stack key
      end
  end.

(** Shapes on which the merge loop cannot throw: no stack is [null] or
    [undefined], and no entry of a stack's [Resources] is. *)
Definition stack_ok (stack : value) : bool :=
  negb (is_nullish stack)
  && (let sr := prop stack "Resources" in
      negb (truthy sr)
      || forallb (fun e => negb (is_nullish e)) (entries_of sr)).

(** A mapping the loop can write to. *)
Definition is_mapping (r : value) : bool :=
  match r with
  | VObj _ => true
  | _ => false
  end.

(** ** The endpoint the specification describes *)

Definition spec_endpoint (hostname port : value) : string :=
  "http://" ++ to_string hostname ++ ":" ++ to_string port.

(* ===================================================================== *)
(** * Example inputs *)
(* ===================================================================== *)

Definition obj (o : props) : value := VObj o.

Definition bucket_resource (name : value) : value :=
  obj [("Type", VStr bucket_type);
       ("Properties", obj [("BucketName", name)])].

Definition quiet_env : env :=
  {| ensureDirSync := fun _ => None;
     realpathSync := fun _ => Ok (VStr "/srv/buckets");
     run_returns := 1;
     run_callback := Some (VNull, VStr "localhost", VNum 4569);
     settlements := [(0, None); (1, None)] |}.

(** Run options asking for port 3000 against a service whose [custom.s3]
    block asks for port 4000. *)
Definition port_3000_options : value := obj [("port", VNum 3000)].

Definition port_4000_service : service :=
  {| custom := obj [("s3", obj [("port", VNum 4000)])];
     plugins := VUndefined;
     resources := VUndefined |}.

(** The template of the end-to-end scenario: one bucket named ["logs"]. *)
Definition logs_mapping : value :=
  obj [("R1", bucket_resource (VStr "logs"))].

(** A bucket whose name is an intrinsic function, not a literal. *)
Definition intrinsic_name : value :=
  obj [("Fn::Sub", VStr "${AWS::StackName}-logs")].

Definition intrinsic_mapping : value :=
  obj [("R1", bucket_resource intrinsic_name)].

Definition intrinsic_service : service :=
  {| custom := VUndefined;
     plugins := VUndefined;
     resources := obj [("Resources", intrinsic_mapping)] |}.

(** A template that names bucket [R1] ["primary"], and a secondary stack that
    declares [R1] as a bucket named ["secondary"] next to a topic. *)
Definition stacked_service : service :=
  {| custom :=
       obj [("additionalStacks",
             obj [("data",
                   obj [("Resources",
                         obj [("R1", bucket_resource (VStr "secondary"));
                              ("Events", obj [("Type", VStr "AWS::SNS::Topic")])])])])];
     plugins := mk_array [plugin_name];
     resources :=
       obj [("Resources",
             obj [("R1", bucket_resource (VStr "primary"));
                  ("Events", bucket_resource (VStr "events"))])] |}.

(** The same service without any bucket in its secondary stack. *)
Definition topic_stack_service : service :=
  {| custom :=
       obj [("additionalStacks",
             obj [("data",
                   obj [("Resources",
                         obj [("Events", obj [("Type", VStr "AWS::SNS::Topic")])])])])];
     plugins := mk_array [plugin_name];
     resources :=
       obj [("Resources", obj [("R1", bucket_resource (VStr "primary"))])] |}.

(** The end-to-end scenario: the ["logs"] template and [custom.s3.buckets:
    ["extra"]]. *)
Definition logs_service : service :=
  {| custom := obj [("s3", obj [("buckets", mk_array ["extra"])])];
     plugins := VUndefined;
     resources := obj [("Resources", logs_mapping)] |}.

(** The same service with [custom.s3.noStart: true], and with a host. *)
Definition no_start_service : service :=
  {| custom := obj [("s3", obj [("buckets", mk_array ["extra"]);
                               ("noStart", VBool true)])];
     plugins := VUndefined;
     resources := obj [("Resources", logs_mapping)] |}.

Definition hosted_service : service :=
  {| custom := obj [("s3", obj [("buckets", mk_array ["extra"]);
                               ("host", VStr "storage.test");
                               ("port", VNum 8000)])];
     plugins := VUndefined;
     resources := VUndefined |}.

(** An emulator that reports the bound port 8000 on [storage.test]. *)
Definition hosted_env : env :=
  {| ensureDirSync := fun _ => None;
     realpathSync := fun _ => Ok (VStr "/srv/buckets");
     run_returns := 1;
     run_callback := Some (VNull, VStr "storage.test", VNum 8000);
     settlements := [(0, None)] |}.

(** An emulator whose start-up fails: the callback gets the error only. *)
Definition port_in_use : value := obj [("code", VStr "EADDRINUSE")].

Definition port_in_use_env : env :=
  {| ensureDirSync := fun _ => None;
     realpathSync := fun _ => Ok (VStr "/srv/buckets");
     run_returns := 1;
     run_callback := Some (port_in_use, VUndefined, VUndefined);
     settlements := [] |}.

(** An emulator that has not called back yet. *)
Definition starting_env : env :=
  {| ensureDirSync := fun _ => None;
     realpathSync := fun _ => Ok (VStr "/srv/buckets");
     run_returns := 1;
     run_callback := None;
     settlements := [] |}.

(** The second create-bucket call fails, the first has not settled. *)
Definition bucket_exists : value := obj [("code", VStr "BucketAlreadyExists")].

Definition failing_create_env : env :=
  {| ensureDirSync := fun _ => None;
     realpathSync := fun _ => Ok (VStr "/srv/buckets");
     run_returns := 1;
     run_callback := Some (VNull, VStr "localhost", VNum 4569);
     settlements := [(1, Some bucket_exists)] |}.

(* ===================================================================== *)
(** * Vocabulary of the further properties *)
(* ===================================================================== *)

(** The calls of the creation step that reach the storage client. *)
Definition is_creation_call (e : event) : bool :=
  match e with
  | S3New _ _ | CreateBucket _ _ => true
  | _ => false
  end.


(** The instance returned by the last [run] of a trace, [cur] when the trace
    has none. *)
Fixpoint last_run (tr : list event) (cur : option server) : option server :=
  match tr with
  | [] => cur
  | S3rverRun h :: r => last_run r (Some h)
  | _ :: r => last_run r cur
  end.

(** Every [close()] of the trace is called on the instance the latest [run]
    before it returned ([cur] before the first [run]). *)
Fixpoint closes_latest (tr : list event) (cur : option server) : bool :=
  match tr with
  | [] => true
  | S3rverRun h :: r => closes_latest r (Some h)
  | ServerClose h :: r =>
      match cur with
      | Some c => Nat.eqb c h && closes_latest r cur
      | None => false
      end
  | _ :: r => closes_latest r cur
  end.

(** The assignments [resources[key] = entry] one stack performs, in order. *)
Definition stack_writes (stack : value) : props :=
  let sr := prop stack "Resources" in
  if truthy sr then
    filter_map (fun key => match entry_if_bucket sr key with
                           | Some e => Some (key, e)
                           | None => None
                           end) (keys_of sr)
  else [].

Definition all_writes (stacks : list value) : props :=
  flat_map stack_writes stacks.

Definition write_all (ws : props) (o : props) : props :=
  fold_left (fun t kv => obj_set t (fst kv) (snd kv)) ws o.

(** The value the last assignment to [k] in a list of assignments gives it. *)
Fixpoint last_write (ws : props) (k : string) : option value :=
  match ws with
  | [] => None
  | (k', e) :: r =>
      match last_write r k with
      | Some x => Some x
      | None => if k' =? k then Some e else None
      end
  end.

(** The options the emulator is constructed with, read off a merged
    configuration and the canonical directory. *)
Definition emulator_options (opts : props) (directory : value) : s3rver_options :=
  {| o_port := js_or (get_own opts "port") (VNum 4569);
     o_hostname := js_or (get_own opts "host") (VStr "localhost");
     o_silent := false;
     o_directory := directory;
     o_cors := js_or (get_own opts "cors") (VBool false) |}.

(** ** Further example inputs *)

Definition no_space : value := obj [("code", VStr "ENOSPC")].

(** A file system on which the bucket directory cannot be created. *)
Definition full_disk_env : env :=
  {| ensureDirSync := fun _ => Some no_space;
     realpathSync := fun _ => Ok (VStr "/srv/buckets");
     run_returns := 1;
     run_callback := Some (VNull, VStr "localhost", VNum 4569);
     settlements := [] |}.

(** A second emulator instance, for histories with two starts. *)
Definition second_env : env :=
  {| ensureDirSync := fun _ => None;
     realpathSync := fun _ => Ok (VStr "/srv/buckets");
     run_returns := 2;
     run_callback := Some (VNull, VStr "localhost", VNum 4569);
     settlements := [(0, None); (1, None)] |}.


(** The plugin list in its object form, and a service that lists the
    extension without having a [custom] section. *)
Definition object_plugins_service : service :=
  {| custom := VUndefined;
     plugins := obj [("modules", mk_array [plugin_name])];
     resources := obj [("Resources", logs_mapping)] |}.

Definition no_custom_service : service :=
  {| custom := VUndefined;
     plugins := mk_array [plugin_name];
     resources := obj [("Resources", logs_mapping)] |}.

(** The extension is listed but the service declares no additional stack. *)
Definition no_stacks_service : service :=
  {| custom := obj [("s3", obj [("port", VNum 8000)])];
     plugins := mk_array ["serverless-offline"; plugin_name];
     resources := obj [("Resources", logs_mapping)] |}.

(** A template with a key that has no body. *)
Definition null_entry_mapping : value :=
  obj [("R1", bucket_resource (VStr "logs")); ("R2", VNull)].

(** Two stacks that both declare [R1]; the second also declares a new key. *)
Definition two_stacks_service : service :=
  {| custom :=
       obj [("additionalStacks",
             obj [("first",
                   obj [("Resources",
                         obj [("R1", bucket_resource (VStr "first"))])]);
                  ("second",
                   obj [("Resources",
                         obj [("R1", bucket_resource (VStr "second"));
                              ("R9", bucket_resource (VStr "ninth"))])])])];
     plugins := mk_array [plugin_name];
     resources := obj [("Resources", logs_mapping)] |}.

(** A template whose [R1] has no body and whose section also holds
    [Outputs]; the secondary stack declares [R1] as a bucket, next to a
    topic. *)
Definition null_primary_service : service :=
  {| custom :=
       obj [("additionalStacks",
             obj [("data",
                   obj [("Resources",
                         obj [("R1", bucket_resource (VStr "secondary"));
                              ("Events", obj [("Type", VStr "AWS::SNS::Topic")])])])])];
     plugins := mk_array [plugin_name];
     resources :=
       obj [("Resources",
             obj [("R1", VNull);
                  ("Events", bucket_resource (VStr "events"))]);
            ("Outputs", obj [("Region", VStr "eu-west-1")])] |}.

(* ===================================================================== *)
(** * The primitives on concrete values *)
(* ===================================================================== *)

(** Array indices come first, in numeric order; ["02"] and [2^32 - 1] are
    ordinary keys; a repeated key is listed once. *)
Example own_keys_order :
  own_keys [("b", VNull); ("10", VNull); ("2", VNull); ("a", VNull);
            ("02", VNull); ("b", VNum 1); ("4294967295", VNull);
            ("4294967294", VNull)]
  = ["2"; "10"; "4294967294"; "b"; "a"; "02"; "4294967295"].
Proof. reflexivity. Qed.

Example truthy_values :
  map truthy [VUndefined; VNull; VBool false; VNum 0; VStr ""; VStr "0";
              VNum 4569; VArr []; VObj []]
  = [false; false; false; false; false; true; true; true; true].
Proof. reflexivity. Qed.

Example to_string_values :
  map to_string [VNum 4569; VNum (-1); VStr "logs"; VNull; VObj [];
                 VArr [VStr "a"; VNull; VArr [VNum 1; VNum 2]]]
  = ["4569"; "-1"; "logs"; "null"; "[object Object]"; "a,,1,2"].
Proof. reflexivity. Qed.

(** [Object.assign({}, {a: 1, b: 2}, {b: 3, c: 4})] is [{a: 1, b: 3, c: 4}];
    a [null] source is skipped and a string source contributes its
    characters. *)
Example Object_assign_values :
  Object_assign [] [VObj [("a", VNum 1); ("b", VNum 2)];
                    VNull;
                    VObj [("b", VNum 3); ("c", VNum 4)];
                    VStr "xy"]
  = [("a", VNum 1); ("b", VNum 3); ("c", VNum 4);
     ("0", VStr "x"); ("1", VStr "y")].
Proof. reflexivity. Qed.

Example concat_arg_values :
  (concat_arg (mk_array ["a"; "b"]), concat_arg (VStr "a"), concat_arg (VArr []))
  = ([VStr "a"; VStr "b"], [VStr "a"], []).
Proof. reflexivity. Qed.

Example hasAdditionalStacksPlugin_values :
  map (fun pl => hasAdditionalStacksPlugin
                   {| custom := VUndefined; plugins := pl; resources := VUndefined |})
      [VUndefined; mk_array ["serverless-offline"];
       mk_array ["serverless-offline"; plugin_name];
       VObj [("modules", mk_array [plugin_name])]]
  = [Ok false; Ok false; Ok true; Throw TypeError].
Proof. reflexivity. Qed.

(* ===================================================================== *)
(** * Facts about property lists *)
(* ===================================================================== *)

Section PropertyLists.

Lemma lookup_obj_set_same (o : props) k v :
  lookup k (obj_set o k v) = Some v.
Proof.
  induction o as [|[k' v'] r IH]; simpl.
  - now rewrite String.eqb_refl.
  - destruct (k' =? k) eqn:E; simpl; rewrite E; auto.
Qed.

Lemma lookup_obj_set_other (o : props) k k' v :
  k' <> k -> lookup k' (obj_set o k v) = lookup k' o.
Proof.
  intros Hne. induction o as [|[k0 v0] r IH]; simpl.
  - destruct (String.eqb_spec k k'); congruence.
  - destruct (String.eqb_spec k0 k) as [->|Hk]; simpl.
    + destruct (String.eqb_spec k k'); congruence.
    + now rewrite IH.
Qed.

Lemma obj_set_same_value (o : props) k v :
  lookup k o = Some v -> obj_set o k v = o.
Proof.
  induction o as [|[k0 v0] r IH]; simpl; [discriminate|].
  destruct (k0 =? k) eqn:E.
  - now intros [= ->].
  - intros H. now rewrite IH.
Qed.

Lemma lookup_None_iff (o : props) k :
  lookup k o = None <-> ~ In k (map fst o).
Proof.
  induction o as [|[k0 v0] r IH]; simpl; [tauto|].
  destruct (String.eqb_spec k0 k) as [->|Hk].
  - split; [discriminate | intros H; exfalso; apply H; now left].
  - rewrite IH. tauto.
Qed.

Lemma lookup_In (o : props) k v :
  lookup k o = Some v -> In (k, v) o.
Proof.
  induction o as [|[k0 v0] r IH]; simpl; [discriminate|].
  destruct (String.eqb_spec k0 k) as [->|Hk].
  - intros [= ->]. now left.
  - intros H. right. auto.
Qed.

Lemma In_uniq (ks : list string) k : In k (uniq ks) <-> In k ks.
Proof.
  induction ks as [|k0 r IH]; simpl; [tauto|].
  rewrite filter_In, IH.
  destruct (String.eqb_spec k k0) as [->|Hk]; simpl; intuition congruence.
Qed.

Lemma NoDup_filter {A} (f : A -> bool) (l : list A) :
  NoDup l -> NoDup (filter f l).
Proof.
  induction 1 as [|a l Hin Hnd IH]; simpl; [constructor|].
  destruct (f a); auto. constructor; auto.
  rewrite filter_In. tauto.
Qed.

Lemma NoDup_uniq (ks : list string) : NoDup (uniq ks).
Proof.
  induction ks as [|k0 r IH]; simpl; constructor.
  - rewrite filter_In, String.eqb_refl. simpl. intros [_ H]. discriminate.
  - now apply NoDup_filter.
Qed.

Lemma In_insert_index n k l x :
  In x (insert_index n k l) <-> x = (n, k) \/ In x l.
Proof.
  induction l as [|[m k'] r IH]; simpl.
  - intuition congruence.
  - destruct (n <=? m)%N; simpl; [intuition congruence|].
    rewrite IH. intuition congruence.
Qed.

Lemma NoDup_insert_index n k l :
  ~ In k (map snd l) -> NoDup (map snd l) ->
  NoDup (map snd (insert_index n k l)).
Proof.
  induction l as [|[m k'] r IH]; simpl; intros Hin Hnd.
  - constructor; [tauto | constructor].
  - destruct (n <=? m)%N; simpl.
    + constructor; [simpl; tauto | assumption].
    + inversion Hnd as [|? ? Hk' Hr]; subst.
      constructor; [|apply IH; tauto].
      rewrite in_map_iff. intros [[m0 k0] [Hk0 Hx]]. simpl in Hk0. subst k0.
      apply In_insert_index in Hx. destruct Hx as [[= -> ->]|Hx]; [tauto|].
      apply Hk'. rewrite in_map_iff. now exists (m0, k').
Qed.

Lemma In_sorted_indices (ks : list string) k :
  In k (sorted_indices ks) <-> In k ks /\ is_index k = true.
Proof.
  unfold sorted_indices, is_index. induction ks as [|k0 r IH]; simpl; [tauto|].
  destruct (array_index k0) eqn:E.
  - rewrite in_map_iff. split.
    + intros [[m k'] [Hk Hx]]. simpl in Hk. subst k'.
      apply In_insert_index in Hx. destruct Hx as [[= -> ->]|Hx].
      * rewrite E. tauto.
      * assert (In k (map snd
          (fold_right (fun k acc => match array_index k with
                                    | Some n => insert_index n k acc
                                    | None => acc end) [] r)))
          by (rewrite in_map_iff; now exists (m, k)).
        tauto.
    + intros [[->|Hin] Hidx].
      * exists (n, k). split; [reflexivity|]. apply In_insert_index. now left.
      * destruct IH as [_ IH]. specialize (IH (conj Hin Hidx)).
        rewrite in_map_iff in IH. destruct IH as [x [Hx1 Hx2]].
        exists x. split; [assumption|]. apply In_insert_index. now right.
  - rewrite IH. split; [tauto|]. intros [[->|Hin] Hidx]; [|tauto].
    rewrite E in Hidx. discriminate.
Qed.

Lemma NoDup_sorted_indices (ks : list string) :
  NoDup ks -> NoDup (sorted_indices ks).
Proof.
  induction 1 as [|k0 r Hin Hnd IH]; [constructor|].
  unfold sorted_indices in *. simpl.
  destruct (array_index k0) eqn:E; [|assumption].
  apply NoDup_insert_index; [|assumption].
  intros H. apply Hin. apply (In_sorted_indices r k0) in H. tauto.
Qed.

Lemma In_own_keys (o : props) k : In k (own_keys o) <-> In k (map fst o).
Proof.
  unfold own_keys. rewrite in_app_iff, In_sorted_indices, filter_In, In_uniq.
  destruct (is_index k); simpl; intuition congruence.
Qed.

Lemma NoDup_own_keys (o : props) : NoDup (own_keys o).
Proof.
  unfold own_keys.
  assert (Hu := NoDup_uniq (map fst o)).
  apply NoDup_app.
  - now apply NoDup_sorted_indices.
  - now apply NoDup_filter.
  - intros k H1 H2. apply In_sorted_indices in H1. apply filter_In in H2.
    destruct H1 as [_ H1]. destruct H2 as [_ H2]. rewrite H1 in H2. discriminate.
Qed.

Lemma lookup_map_keys (f : string -> value) (ks : list string) k :
  lookup k (map (fun k => (k, f k)) ks) = if in_dec string_dec k ks then Some (f k) else None.
Proof.
  induction ks as [|k0 r IH]; simpl; [reflexivity|].
  destruct (String.eqb_spec k0 k) as [->|Hk].
  - destruct (string_dec k k); [|congruence]. reflexivity.
  - rewrite IH. destruct (string_dec k0 k); [congruence|].
    destruct (in_dec string_dec k r); reflexivity.
Qed.

(** Enumerating an object gives back its properties. *)
Lemma lookup_own_props_obj (o : props) k :
  lookup k (own_props (VObj o)) = lookup k o.
Proof.
  simpl. rewrite lookup_map_keys.
  destruct (in_dec string_dec k (own_keys o)) as [Hin|Hin];
    rewrite In_own_keys in Hin.
  - unfold get_own. destruct (lookup k o) eqn:E; [reflexivity|].
    apply lookup_None_iff in E. contradiction.
  - symmetry. now apply lookup_None_iff.
Qed.

Lemma map_fst_own_props_obj (o : props) :
  map fst (own_props (VObj o)) = own_keys o.
Proof.
  simpl. rewrite map_map. simpl. apply map_id.
Qed.

Lemma string_of_nat_inj a b : string_of_nat a = string_of_nat b -> a = b.
Proof.
  unfold string_of_nat. intros H.
  assert (Hnil : forall n, Nat.to_uint n <> Decimal.Nil).
  { intros n Hn. assert (Hz := DecimalNat.Unsigned.of_to n).
    rewrite Hn in Hz. simpl in Hz. subst n. discriminate. }
  apply DecimalNat.Unsigned.to_uint_inj.
  assert (Ha := NilZero.usu _ (Hnil a)). assert (Hb := NilZero.usu _ (Hnil b)).
  rewrite H in Ha. congruence.
Qed.

Lemma In_indexed_from i l k :
  In k (map fst (indexed_from i l)) ->
  exists j, i <= j /\ k = string_of_nat j.
Proof.
  revert i. induction l as [|v r IH]; simpl; intros i; [tauto|].
  intros [<-|H]; [exists i; split; [lia | reflexivity]|].
  destruct (IH _ H) as [j [Hj ->]]. exists j. split; [lia | reflexivity].
Qed.

Lemma NoDup_indexed_from i l : NoDup (map fst (indexed_from i l)).
Proof.
  revert i. induction l as [|v r IH]; simpl; intros i; constructor; auto.
  intros H. apply In_indexed_from in H. destruct H as [j [Hj Heq]].
  apply string_of_nat_inj in Heq. lia.
Qed.

(** The enumeration of any value lists each key once. *)
Lemma NoDup_own_props (v : value) : NoDup (map fst (own_props v)).
Proof.
  destruct v; simpl; try constructor.
  - apply NoDup_indexed_from.
  - apply NoDup_indexed_from.
  - rewrite map_map. simpl. rewrite map_id. apply NoDup_own_keys.
Qed.

Lemma lookup_assign_from (src : props) (t : props) k :
  NoDup (map fst src) ->
  lookup k (fold_left (fun t kv => obj_set t (fst kv) (snd kv)) src t)
  = match lookup k src with
    | Some v => Some v
    | None => lookup k t
    end.
Proof.
  revert t. induction src as [|[k0 v0] r IH]; simpl; intros t Hnd; [reflexivity|].
  inversion Hnd as [|? ? Hin Hr]; subst.
  rewrite IH by assumption.
  destruct (String.eqb_spec k0 k) as [->|Hk].
  - rewrite (proj2 (lookup_None_iff r k) Hin). apply lookup_obj_set_same.
  - destruct (lookup k r); [reflexivity|].
    apply lookup_obj_set_other. congruence.
Qed.

End PropertyLists.

(* ===================================================================== *)
(** * Configuration merge *)
(* ===================================================================== *)

Lemma get_prop_ok (v : value) k :
  is_nullish v = false -> get_prop v k = Ok (prop v k).
Proof.
  unfold prop. destruct v; simpl; try discriminate; intros _; try reflexivity.
  - destruct (k =? "length"); reflexivity.
  - destruct (k =? "length"); reflexivity.
Qed.

Lemma truthy_not_nullish (v : value) : truthy v = true -> is_nullish v = false.
Proof. destruct v; simpl; congruence. Qed.

(** Lines 60-61 never throw: [custom.s3] is read only when [custom] is
    truthy. *)
Lemma service_config_total (s : service) :
  service_config s = Ok (js_or (js_and (custom s) (prop (custom s) "s3")) (VObj [])).
Proof.
  unfold service_config, js_and_then, js_and.
  destruct (truthy (custom s)) eqn:E; [|reflexivity].
  rewrite get_prop_ok by now apply truthy_not_nullish. reflexivity.
Qed.

(** C1 (as amended).  [Object.assign({}, this.options, config)] copies the run
    options first and the service's [custom.s3] block second, so for run
    options and a service block neither of which has an own key [__proto__]
    the merged configuration is the run options overlaid by the service
    configuration: on every colliding key the service configuration wins, and
    a key of either source is a key of the result.  (A source key [__proto__]
    would be written through the prototype accessor; the statement leaves it
    out.) *)
Theorem service_config_overrides_run_options (opts config : value) (k : string) :
  lookup "__proto__" (own_props opts) = None ->
  lookup "__proto__" (own_props config) = None ->
  lookup k (merge_options opts config) = overlay opts config k.
Proof.
  intros _ _.
  unfold merge_options, Object_assign, assign_from, overlay. simpl.
  rewrite !lookup_assign_from by apply NoDup_own_props. simpl.
  destruct (lookup k (own_props config)); [reflexivity|].
  destruct (lookup k (own_props opts)); reflexivity.
Qed.

(** [--port 3000 --cors] against [custom.s3: {port: 4000}]: the port is the
    service's, the other key is kept. *)
Lemma service_config_overrides_port_3000 :
  lookup "port" (merge_options (obj [("port", VNum 3000); ("cors", VBool true)])
                   (obj [("port", VNum 4000)]))
  = overlay (obj [("port", VNum 3000); ("cors", VBool true)])
      (obj [("port", VNum 4000)]) "port"
  /\ lookup "cors" (merge_options (obj [("port", VNum 3000); ("cors", VBool true)])
                      (obj [("port", VNum 4000)]))
     = overlay (obj [("port", VNum 3000); ("cors", VBool true)])
         (obj [("port", VNum 4000)]) "cors".
Proof.
  split;
    apply (service_config_overrides_run_options
             (obj [("port", VNum 3000); ("cors", VBool true)])
             (obj [("port", VNum 4000)]));
    reflexivity.
Defined.

(** C1, counterexample.  With [--port 3000] on the command line and
    [custom.s3.port: 4000] in the service, the merged configuration holds
    port 4000, whereas the service configuration overlaid by the run options
    would hold 3000. *)
Lemma run_options_lose_on_collision :
  service_config port_4000_service = Ok (obj [("port", VNum 4000)])
  /\ lookup "port" (merge_options port_3000_options (obj [("port", VNum 4000)]))
     = Some (VNum 4000)
  /\ overlay (obj [("port", VNum 4000)]) port_3000_options "port"
     = Some (VNum 3000)
  /\ lookup "port" (merge_options port_3000_options (obj [("port", VNum 4000)]))
     <> overlay (obj [("port", VNum 4000)]) port_3000_options "port".
Proof.
  repeat split; try reflexivity. vm_compute. discriminate.
Qed.

(* ===================================================================== *)
(** * Bucket resolution *)
(* ===================================================================== *)

Section Resolver.

Lemma mapM_ok {A B} (f : A -> result B) (g : A -> B) (l : list A) :
  (forall a, In a l -> f a = Ok (g a)) -> mapM f l = Ok (map g l).
Proof.
  induction l as [|a r IH]; simpl; intros H; [reflexivity|].
  rewrite (H a) by now left. simpl. rewrite IH by auto. reflexivity.
Qed.

Lemma Object_keys_ok (r : value) :
  is_nullish r = false -> Object_keys r = Ok (keys_of r).
Proof. unfold Object_keys. now intros ->. Qed.

(** What the [map] callback returns on an entry that is not [null] or
    [undefined]. *)
Lemma bucket_name_or_null_ok (r : value) key :
  is_nullish r = false ->
  is_nullish (prop r key) = false ->
  bucket_name_or_null r key
  = Ok (match bucket_name (prop r key) with
        | Some n => n
        | None => VNull
        end).
Proof.
  intros Hr He. unfold bucket_name_or_null, bucket_name.
  rewrite (get_prop_ok r) by assumption. simpl.
  rewrite (get_prop_ok (prop r key)) by assumption. simpl.
  destruct (strict_eq_str (prop (prop r key) "Type") bucket_type); simpl;
    [|reflexivity].
  rewrite (get_prop_ok (prop r key)) by assumption. simpl.
  unfold js_and_then.
  destruct (truthy (prop (prop r key) "Properties")) eqn:Ep; simpl.
  - rewrite get_prop_ok by now apply truthy_not_nullish. simpl.
    destruct (truthy (prop (prop (prop r key) "Properties") "BucketName"));
      reflexivity.
  - rewrite Ep. reflexivity.
Qed.

Lemma bucket_name_truthy (e n : value) :
  bucket_name e = Some n -> truthy n = true.
Proof.
  unfold bucket_name.
  destruct (strict_eq_str (prop e "Type") bucket_type); simpl; [|discriminate].
  destruct (truthy (prop e "Properties")); simpl; [|discriminate].
  destruct (truthy (prop (prop e "Properties") "BucketName")) eqn:E;
    [|discriminate].
  now intros [= <-].
Qed.

Lemma filter_truthy_names (l : list value) :
  filter truthy
    (map (fun e => match bucket_name e with Some n => n | None => VNull end) l)
  = filter_map bucket_name l.
Proof.
  induction l as [|e r IH]; simpl; [reflexivity|].
  destruct (bucket_name e) eqn:E.
  - rewrite (bucket_name_truthy _ _ E). now rewrite IH.
  - simpl. apply IH.
Qed.

(** Map-then-filter is filter-then-map: the walk of lines 158-165 returns the
    names of the named buckets, in iteration order. *)
Lemma named_buckets_spec (r : value) :
  is_nullish r = false ->
  Forall (fun e => is_nullish e = false) (entries_of r) ->
  named_buckets r = Ok (filter_map bucket_name (entries_of r)).
Proof.
  intros Hr He. unfold named_buckets.
  rewrite Object_keys_ok by assumption. simpl.
  rewrite (mapM_ok _
             (fun key => match bucket_name (prop r key) with
                         | Some n => n
                         | None => VNull
                         end)).
  - simpl. unfold entries_of.
    rewrite <- filter_truthy_names, map_map. reflexivity.
  - intros key Hin. apply bucket_name_or_null_ok; [assumption|].
    unfold entries_of in He. rewrite Forall_forall in He.
    apply He. now apply in_map.
Qed.

Lemma filter_map_truthy (l : list value) :
  Forall (fun n => truthy n = true) (filter_map bucket_name l).
Proof.
  induction l as [|e r IH]; simpl; [constructor|].
  destruct (bucket_name e) eqn:E; [|assumption].
  constructor; [|assumption]. now apply bucket_name_truthy in E.
Qed.

End Resolver.

(** Line 144 never throws, and what it binds can be enumerated. *)
Lemma resource_mapping_total (s : service) :
  exists r aliased,
    resource_mapping s = Ok (r, aliased) /\ is_nullish r = false.
Proof.
  unfold resource_mapping, js_and_then.
  destruct (truthy (resources s)) eqn:E.
  - rewrite get_prop_ok by now apply truthy_not_nullish. simpl.
    destruct (truthy (prop (resources s) "Resources")) eqn:Er.
    + eexists _, _. split; [reflexivity|]. now apply truthy_not_nullish.
    + eexists _, _. split; reflexivity.
  - simpl. rewrite E. eexists _, _. split; reflexivity.
Qed.

(** Without the extension [buckets()] is the walk over the template's
    mapping, and the service is not touched. *)
Lemma buckets_without_plugin (s : service) (r : value) (aliased : bool) :
  resource_mapping s = Ok (r, aliased) ->
  hasAdditionalStacksPlugin s = Ok false ->
  buckets s = (named_buckets r, s).
Proof.
  intros Hm Hp. unfold buckets. now rewrite Hm, Hp.
Qed.

(** An entry that is [null] (a key with no value in the YAML) makes the walk
    throw: [resources[key].Type] is read before anything is tested. *)
Lemma null_entry_throws :
  named_buckets (obj [("R1", VNull)]) = Throw TypeError.
Proof. reflexivity. Qed.

(** C2 (as amended).  For every resource mapping whose entries are objects
    (none is [null] or [undefined]) and every explicit bucket list, the
    resolved sequence is the [BucketName] of each entry whose [Type] is the
    bucket type and whose [Properties] and [BucketName] are truthy, in
    iteration order, followed by the explicit buckets in their order.  Every
    emitted name is truthy, so nothing is emitted as [null] or empty; the
    name need not be a literal, any truthy value is emitted as it is. *)
Theorem resolved_buckets_are_truthy_names_then_explicit
  (r : value) (opts : props) (explicit : list value) :
  is_nullish r = false ->
  Forall (fun e => is_nullish e = false) (entries_of r) ->
  get_own opts "buckets" = VArr explicit ->
  exists named,
    named_buckets r = Ok named
    /\ named = filter_map bucket_name (entries_of r)
    /\ Forall (fun n => truthy n = true) named
    /\ bucket_list named opts = (named ++ explicit)%list.
Proof.
  intros Hr He Hb. exists (filter_map bucket_name (entries_of r)).
  split; [now apply named_buckets_spec|].
  split; [reflexivity|].
  split; [apply filter_map_truthy|].
  unfold bucket_list. rewrite Hb. reflexivity.
Qed.

(** The scenario of the specification: [{R1: bucket "logs"}] with explicit
    buckets [["extra"]] resolves to [["logs"; "extra"]]. *)
Lemma resolved_buckets_logs_extra :
  exists named,
    named_buckets logs_mapping = Ok named
    /\ named = [VStr "logs"]
    /\ Forall (fun n => truthy n = true) named
    /\ bucket_list named [("buckets", mk_array ["extra"])]
       = [VStr "logs"; VStr "extra"].
Proof.
  destruct (resolved_buckets_are_truthy_names_then_explicit
              logs_mapping [("buckets", mk_array ["extra"])] [VStr "extra"])
    as [named [H1 [H2 [H3 H4]]]].
  - reflexivity.
  - repeat constructor.
  - reflexivity.
  - exists named. vm_compute in H2. subst named. repeat split; assumption.
Defined.

(** C2, counterexample.  A bucket-type entry whose [BucketName] is an
    intrinsic function carries no literal name, yet [buckets()] emits the
    object; the sequence the specification describes is empty. *)
Lemma intrinsic_name_is_emitted :
  buckets intrinsic_service = (Ok [intrinsic_name], intrinsic_service)
  /\ bucket_list [intrinsic_name] [] = [intrinsic_name]
  /\ spec_resolve intrinsic_mapping [] = []
  /\ bucket_list [intrinsic_name] [] <> spec_resolve intrinsic_mapping [].
Proof.
  repeat split; try reflexivity. vm_compute. discriminate.
Qed.

(* ===================================================================== *)
(** * Secondary stacks *)
(* ===================================================================== *)

Section SecondaryStacks.

Lemma lookup_own_props_set_prop (r r1 : value) key e k :
  set_prop r key e = Ok r1 ->
  lookup k (own_props r1)
  = if key =? k then Some e else lookup k (own_props r).
Proof.
  destruct r as [| | | | |l|o]; cbn [set_prop]; try discriminate;
    intros [= <-]; rewrite !lookup_own_props_obj; cbn [own_props];
    (destruct (String.eqb_spec key k) as [->|Hk];
     [apply lookup_obj_set_same | apply lookup_obj_set_other; congruence]).
Qed.

Lemma entry_if_bucket_not_nullish sr key e :
  entry_if_bucket sr key = Some e -> is_nullish e = false.
Proof.
  unfold entry_if_bucket.
  destruct (strict_eq_str (prop (prop sr key) "Type") bucket_type) eqn:E;
    [|discriminate].
  intros [= <-]. destruct (prop sr key); try reflexivity; discriminate.
Qed.

Lemma merge_entry_lookup sr key r r1 :
  is_nullish sr = false ->
  merge_entry sr key r = Ok r1 ->
  forall k,
    lookup k (own_props r1)
    = match (if key =? k then entry_if_bucket sr key else None) with
      | Some e => Some e
      | None => lookup k (own_props r)
      end.
Proof.
  intros Hsr. unfold merge_entry, entry_if_bucket.
  rewrite (get_prop_ok sr) by assumption. simpl.
  destruct (is_nullish (prop sr key)) eqn:He.
  - destruct (prop sr key); simpl in *; discriminate.
  - rewrite get_prop_ok by assumption. simpl.
    destruct (strict_eq_str (prop (prop sr key) "Type") bucket_type).
    + intros H k. rewrite (lookup_own_props_set_prop _ _ _ _ k H).
      destruct (key =? k); reflexivity.
    + intros [= <-] k. destruct (key =? k); reflexivity.
Qed.

Lemma merge_entries_lookup sr keys :
  is_nullish sr = false ->
  forall r r',
    merge_entries sr keys r = (r', None) ->
    forall k,
      lookup k (own_props r')
      = match (if existsb (String.eqb k) keys then entry_if_bucket sr k
               else None) with
        | Some e => Some e
        | None => lookup k (own_props r)
        end.
Proof.
  intros Hsr. induction keys as [|key rest IH]; simpl; intros r r' H k.
  - now inversion H.
  - destruct (merge_entry sr key r) as [r1|err] eqn:E; [|discriminate].
    rewrite (IH _ _ H k), (merge_entry_lookup _ _ _ _ Hsr E k).
    rewrite (String.eqb_sym k key).
    destruct (String.eqb_spec key k) as [->|Hk]; simpl.
    + destruct (existsb (String.eqb k) rest), (entry_if_bucket sr k);
        reflexivity.
    + reflexivity.
Qed.

Lemma merge_stack_lookup stack r r' :
  merge_stack stack r = (r', None) ->
  forall k,
    lookup k (own_props r')
    = match declared_bucket stack k with
      | Some e => Some e
      | None => lookup k (own_props r)
      end.
Proof.
  unfold merge_stack, declared_bucket.
  destruct (is_nullish stack) eqn:Hs.
  - destruct stack; simpl in *; discriminate.
  - rewrite get_prop_ok by assumption.
    destruct (truthy (prop stack "Resources")) eqn:Ht; simpl.
    + assert (Hn := truthy_not_nullish _ Ht).
      rewrite Object_keys_ok by assumption.
      intros H k. apply (merge_entries_lookup _ _ Hn _ _ H).
    + now intros [= <-] k.
Qed.

(** The merged mapping, key by key: the entry of the last stack declaring a
    bucket under the key, and the template's own entry otherwise. *)
Lemma merge_stacks_lookup stacks :
  forall r r',
    merge_stacks stacks r = (r', None) ->
    forall k,
      lookup k (own_props r')
      = match secondary_entry stacks k with
        | Some e => Some e
        | None => lookup k (own_props r)
        end.
Proof.
  induction stacks as [|stack rest IH]; simpl; intros r r' H k.
  - now inversion H.
  - destruct (merge_stack stack r) as [r1 [err|]] eqn:E; [discriminate|].
    rewrite (IH _ _ H k), (merge_stack_lookup _ _ _ E k).
    destruct (secondary_entry rest k); reflexivity.
Qed.

Lemma merge_entry_total sr key r :
  is_nullish sr = false ->
  is_nullish (prop sr key) = false ->
  is_mapping r = true ->
  exists r1, merge_entry sr key r = Ok r1 /\ is_mapping r1 = true.
Proof.
  intros Hsr He Hr. unfold merge_entry.
  rewrite (get_prop_ok sr) by assumption. simpl.
  rewrite get_prop_ok by assumption. simpl.
  destruct (strict_eq_str (prop (prop sr key) "Type") bucket_type).
  - destruct r; try discriminate. simpl. eexists. split; reflexivity.
  - exists r. now split.
Qed.

Lemma merge_entries_total sr keys :
  is_nullish sr = false ->
  Forall (fun key => is_nullish (prop sr key) = false) keys ->
  forall r, is_mapping r = true ->
  exists r', merge_entries sr keys r = (r', None) /\ is_mapping r' = true.
Proof.
  intros Hsr. induction 1 as [|key rest Hk Hrest IH]; simpl; intros r Hr.
  - exists r. now split.
  - destruct (merge_entry_total sr key r Hsr Hk Hr) as [r1 [-> Hr1]].
    now apply IH.
Qed.

Lemma merge_stack_total stack r :
  stack_ok stack = true -> is_mapping r = true ->
  exists r', merge_stack stack r = (r', None) /\ is_mapping r' = true.
Proof.
  unfold stack_ok, merge_stack. intros H Hr.
  apply andb_true_iff in H. destruct H as [Hs H].
  apply negb_true_iff in Hs. rewrite get_prop_ok by assumption.
  destruct (truthy (prop stack "Resources")) eqn:Ht; simpl in H.
  - assert (Hn := truthy_not_nullish _ Ht).
    rewrite Object_keys_ok by assumption.
    apply merge_entries_total; try assumption.
    rewrite forallb_forall in H. rewrite Forall_forall. intros key Hin.
    apply negb_true_iff. apply H. unfold entries_of. now apply in_map.
  - exists r. now split.
Qed.

(** On well-shaped stacks the merge loop runs to its end. *)
Lemma merge_stacks_total stacks :
  forallb stack_ok stacks = true ->
  forall r, is_mapping r = true ->
  exists r', merge_stacks stacks r = (r', None) /\ is_mapping r' = true.
Proof.
  induction stacks as [|stack rest IH]; simpl; intros H r Hr.
  - exists r. now split.
  - apply andb_true_iff in H. destruct H as [Hs Hrest].
    destruct (merge_stack_total stack r Hs Hr) as [r1 [-> Hr1]].
    now apply IH.
Qed.

Lemma secondary_entry_not_nullish stacks k e :
  secondary_entry stacks k = Some e -> is_nullish e = false.
Proof.
  induction stacks as [|stack rest IH]; simpl; [discriminate|].
  destruct (secondary_entry rest k) eqn:E.
  - intros [= <-]. now apply IH.
  - unfold declared_bucket.
    destruct (truthy (prop stack "Resources")
              && existsb (String.eqb k) (keys_of (prop stack "Resources")));
      [|discriminate].
    apply entry_if_bucket_not_nullish.
Qed.

Lemma prop_of_lookup (r : value) k v :
  is_mapping r = true -> lookup k (own_props r) = Some v -> prop r k = v.
Proof.
  destruct r as [| | | | | |o]; try discriminate. intros _.
  rewrite lookup_own_props_obj. intros H.
  unfold prop. cbn [get_prop]. unfold get_own. now rewrite H.
Qed.

Lemma In_keys_lookup (r : value) k :
  In k (keys_of r) <-> exists v, lookup k (own_props r) = Some v.
Proof.
  unfold keys_of. split.
  - intros H. destruct (lookup k (own_props r)) eqn:E; [eauto|].
    apply lookup_None_iff in E. contradiction.
  - intros [v H]. apply lookup_In in H.
    apply in_map_iff. now exists (k, v).
Qed.

Lemma In_filter_map {A B} (f : A -> option B) (l : list A) a b :
  In a l -> f a = Some b -> In b (filter_map f l).
Proof.
  induction l as [|x r IH]; simpl; [tauto|].
  intros [->|Hin] Hf.
  - rewrite Hf. now left.
  - destruct (f x); [right|]; auto.
Qed.

End SecondaryStacks.

Lemma is_mapping_not_nullish (r : value) : is_mapping r = true -> is_nullish r = false.
Proof. destruct r; simpl; congruence. Qed.

Lemma secondary_entry_none stacks key :
  secondary_entry stacks key = None
  <-> forall st, In st stacks -> declared_bucket st key = None.
Proof.
  induction stacks as [|stack rest IH]; simpl.
  - split; [intros _ st [] | reflexivity].
  - destruct (secondary_entry rest key) as [e|] eqn:E.
    + split; [discriminate|]. intros H. exfalso.
      assert (Hr : Some e = None) by (apply IH; intros st Hin; apply H; now right).
      discriminate.
    + split.
      * intros Hd st [<-|Hin]; [assumption|]. now apply (proj1 IH).
      * intros H. apply H. now left.
Qed.

(** The stack that wins a key is the last one that declares a bucket under
    it. *)
Lemma secondary_entry_last pre stack post key e :
  declared_bucket stack key = Some e ->
  (forall st, In st post -> declared_bucket st key = None) ->
  secondary_entry (pre ++ stack :: post) key = Some e.
Proof.
  intros Hd Hpost. induction pre as [|st pre IH]; simpl.
  - now rewrite (proj2 (secondary_entry_none post key) Hpost).
  - now rewrite IH.
Qed.

(** After the merge no entry is [null] or [undefined], provided that the
    template entries no stack replaces are not. *)
Lemma merged_entries_not_nullish stacks r r' :
  is_mapping r = true -> is_mapping r' = true ->
  merge_stacks stacks r = (r', None) ->
  (forall key, In key (keys_of r) ->
     (forall st, In st stacks -> declared_bucket st key = None) ->
     is_nullish (prop r key) = false) ->
  Forall (fun e => is_nullish e = false) (entries_of r').
Proof.
  intros Hr Hr' Hm He. rewrite Forall_forall. unfold entries_of.
  intros e Hin. apply in_map_iff in Hin. destruct Hin as [key [<- Hkey]].
  apply In_keys_lookup in Hkey. destruct Hkey as [v Hv].
  rewrite (prop_of_lookup _ _ _ Hr' Hv).
  rewrite (merge_stacks_lookup _ _ _ Hm key) in Hv.
  destruct (secondary_entry stacks key) as [e'|] eqn:E.
  - injection Hv as <-. now apply secondary_entry_not_nullish in E.
  - rewrite <- (prop_of_lookup _ _ _ Hr Hv).
    apply He; [apply In_keys_lookup; eauto|].
    now apply secondary_entry_none.
Qed.

(** C3 (as amended).  With the secondary-stacks extension present, well-shaped
    stacks and no stack declaring a bucket under the key [__proto__]: under
    every key that secondary stacks declare with the bucket type, the mapping
    the names are read from holds the entry of the last stack that does so,
    in place of whatever the template had there (a bucket, another resource,
    [null], or nothing), and that entry's name is in the output; the entry of
    an earlier stack under the same key is overwritten like the template's.
    Under a key no stack declares with the bucket type the mapping holds what
    the template has, so secondary resources of other types are never merged.
    The template entries that are not replaced must not be [null]; the loop
    then runs to its end and the output is read from the merged mapping. *)
Theorem secondary_bucket_replaces_primary
  (s : service) (r : value) (aliased : bool) (stacks : list value) :
  resource_mapping s = Ok (r, aliased) ->
  hasAdditionalStacksPlugin s = Ok true ->
  getAdditionalStacks s = Ok stacks ->
  is_mapping r = true ->
  forallb stack_ok stacks = true ->
  (forall st, In st stacks -> declared_bucket st "__proto__" = None) ->
  (forall key, In key (keys_of r) ->
     (forall st, In st stacks -> declared_bucket st key = None) ->
     is_nullish (prop r key) = false) ->
  exists r',
    merge_stacks stacks r = (r', None)
    /\ fst (buckets s) = Ok (filter_map bucket_name (entries_of r'))
    /\ (forall pre stack post key e,
          stacks = (pre ++ stack :: post)%list ->
          declared_bucket stack key = Some e ->
          (forall st, In st post -> declared_bucket st key = None) ->
          prop r' key = e
          /\ forall n, bucket_name e = Some n ->
                       In n (filter_map bucket_name (entries_of r')))
    /\ (forall key,
          (forall st, In st stacks -> declared_bucket st key = None) ->
          lookup key (own_props r') = lookup key (own_props r)).
Proof.
  intros Hmap Hplug Hstacks Hr Hok _ He.
  destruct (merge_stacks_total stacks Hok r Hr) as [r' [Hm Hr']].
  exists r'. split; [assumption|].
  assert (Hlook := merge_stacks_lookup _ _ _ Hm).
  split; [|split].
  - unfold buckets. rewrite Hmap, Hplug, Hstacks, Hm. simpl.
    apply named_buckets_spec.
    + now apply is_mapping_not_nullish.
    + now apply (merged_entries_not_nullish stacks r).
  - intros pre stack post key e -> Hd Hpost.
    specialize (Hlook key).
    rewrite (secondary_entry_last _ _ _ _ _ Hd Hpost) in Hlook.
    assert (Hp : prop r' key = e) by now apply prop_of_lookup.
    split; [assumption|]. intros n Hn.
    apply (In_filter_map _ _ e); [|assumption].
    unfold entries_of. rewrite <- Hp. apply in_map.
    apply In_keys_lookup. eauto.
  - intros key Hnone. specialize (Hlook key).
    now rewrite (proj2 (secondary_entry_none stacks key) Hnone) in Hlook.
Qed.

(** The template's [R1] has no body and its [Events] is a bucket; the stack
    declares [R1] as the bucket ["secondary"] and [Events] as a topic.  The
    output names ["secondary"] and ["events"]: the stack's bucket stands where
    the [null] was, and its topic is not merged over the template's bucket. *)
Lemma secondary_bucket_replaces_null_primary :
  exists r',
    merge_stacks [prop (prop (custom null_primary_service) "additionalStacks") "data"]
      (prop (resources null_primary_service) "Resources") = (r', None)
    /\ fst (buckets null_primary_service) = Ok [VStr "secondary"; VStr "events"]
    /\ prop r' "R1" = bucket_resource (VStr "secondary")
    /\ lookup "Events" (own_props r')
       = Some (bucket_resource (VStr "events")).
Proof.
  destruct (secondary_bucket_replaces_primary null_primary_service
              (prop (resources null_primary_service) "Resources") true
              [prop (prop (custom null_primary_service) "additionalStacks") "data"])
    as [r' [Hm [Hb [Hsec Hother]]]].
  - reflexivity.
  - reflexivity.
  - reflexivity.
  - reflexivity.
  - reflexivity.
  - intros st [<-|[]]. reflexivity.
  - intros key [<-|[<-|[]]] Hnone.
    + exfalso.
      specialize (Hnone _ (or_introl eq_refl)). discriminate Hnone.
    + reflexivity.
  - exists r'. split; [exact Hm|].
    split; [reflexivity|].
    split.
    + destruct (Hsec []
                  (prop (prop (custom null_primary_service) "additionalStacks")
                     "data")
                  [] "R1" (bucket_resource (VStr "secondary")))
        as [Hp _]; [reflexivity | reflexivity | intros st [] | exact Hp].
    + rewrite (Hother "Events"); [reflexivity|].
      intros st [<-|[]]. reflexivity.
Defined.

(** C3, counterexample.  Two secondary stacks declare a bucket under [R1], a
    key of the template.  The stack [first] declares it with the name
    ["first"], yet the entry that replaces the template's is the one of the
    stack [second]: the resolved output holds ["second"] and does not hold
    ["first"]. *)
Lemma earlier_stack_entry_is_overwritten :
  lookup "R1" (own_props (prop (resources two_stacks_service) "Resources"))
  = Some (bucket_resource (VStr "logs"))
  /\ declared_bucket
       (prop (prop (custom two_stacks_service) "additionalStacks") "first") "R1"
     = Some (bucket_resource (VStr "first"))
  /\ fst (buckets two_stacks_service) = Ok [VStr "second"; VStr "ninth"]
  /\ ~ In (VStr "first") [VStr "second"; VStr "ninth"].
Proof.
  repeat split. intros [H|[H|[]]]; discriminate H.
Qed.

(* ===================================================================== *)
(** * What [buckets()] does to the service *)
(* ===================================================================== *)

Section Frame.

Lemma get_prop_cases (v : value) k :
  get_prop v k = Ok (prop v k) \/ get_prop v k = Throw TypeError.
Proof.
  destruct (is_nullish v) eqn:E.
  - right. destruct v; simpl in *; congruence.
  - left. now apply get_prop_ok.
Qed.

Lemma merge_entry_unchanged sr key r :
  entry_if_bucket sr key = None ->
  merge_entry sr key r = Ok r \/ exists err, merge_entry sr key r = Throw err.
Proof.
  unfold entry_if_bucket, merge_entry. intros H.
  destruct (get_prop_cases sr key) as [-> | ->]; simpl; [|eauto].
  destruct (get_prop_cases (prop sr key) "Type") as [-> | ->]; simpl; [|eauto].
  destruct (strict_eq_str (prop (prop sr key) "Type") bucket_type);
    [discriminate | now left].
Qed.

Lemma merge_entries_unchanged sr keys r :
  (forall key, In key keys -> entry_if_bucket sr key = None) ->
  fst (merge_entries sr keys r) = r.
Proof.
  induction keys as [|key rest IH]; simpl; intros H; [reflexivity|].
  destruct (merge_entry_unchanged sr key r (H key (or_introl eq_refl)))
    as [-> | [err ->]]; [|reflexivity].
  apply IH. auto.
Qed.

Lemma existsb_eqb_In k (l : list string) :
  In k l -> existsb (String.eqb k) l = true.
Proof.
  intros H. apply existsb_exists. exists k. split; [assumption|].
  apply String.eqb_refl.
Qed.

Lemma merge_stack_unchanged stack r :
  (forall key, declared_bucket stack key = None) ->
  fst (merge_stack stack r) = r.
Proof.
  unfold merge_stack, declared_bucket. intros H.
  destruct (get_prop_cases stack "Resources") as [-> | ->]; [|reflexivity].
  destruct (truthy (prop stack "Resources")) eqn:Ht; [|reflexivity].
  rewrite Object_keys_ok by now apply truthy_not_nullish.
  apply merge_entries_unchanged. intros key Hin.
  specialize (H key). cbv zeta in H.
  rewrite (existsb_eqb_In _ _ Hin) in H. exact H.
Qed.

Lemma merge_stacks_unchanged stacks r :
  (forall stack key, In stack stacks -> declared_bucket stack key = None) ->
  fst (merge_stacks stacks r) = r.
Proof.
  induction stacks as [|stack rest IH]; simpl; intros H; [reflexivity|].
  assert (Hs := merge_stack_unchanged stack r
                  (fun key => H stack key (or_introl eq_refl))).
  destruct (merge_stack stack r) as [r1 [err|]]; simpl in Hs; subst r1;
    [reflexivity|].
  apply IH. intros st key Hin. apply H. now right.
Qed.

Lemma string_of_nat_not_Resources i : (string_of_nat i =? "Resources") = false.
Proof.
  apply String.eqb_neq. unfold string_of_nat.
  destruct (Nat.to_uint i); discriminate.
Qed.

Lemma indexed_from_no_Resources i l : lookup "Resources" (indexed_from i l) = None.
Proof.
  revert i. induction l as [|v r IH]; simpl; intros i; [reflexivity|].
  now rewrite string_of_nat_not_Resources.
Qed.

(** The local is the template's own object exactly when [service.resources]
    is an object with a truthy [Resources] property. *)
Lemma resource_mapping_aliased (s : service) (r : value) :
  resource_mapping s = Ok (r, true) ->
  exists o, resources s = VObj o /\ lookup "Resources" o = Some r.
Proof.
  unfold resource_mapping, js_and_then.
  destruct (resources s) as [| |b|n|str|l|o]; simpl;
    try (intros H; discriminate H).
  - destruct b; simpl; intros H; discriminate H.
  - destruct (n =? 0)%Z eqn:E; simpl; [rewrite E|]; intros H; discriminate H.
  - unfold get_own, indexed. rewrite indexed_from_no_Resources.
    destruct (str =? "") eqn:E; simpl; [rewrite E|]; intros H; discriminate H.
  - unfold get_own, indexed. rewrite indexed_from_no_Resources.
    intros H; discriminate H.
  - unfold get_own. destruct (lookup "Resources" o) as [v|] eqn:El; simpl;
      [|intros H; discriminate H].
    destruct (truthy v); [|intros H; discriminate H].
    intros [= <-]. now exists o.
Qed.

Lemma write_through_same (s : service) (r : value) :
  resource_mapping s = Ok (r, true) -> write_through s r = s.
Proof.
  intros H. destruct (resource_mapping_aliased s r H) as [o [Ho Hl]].
  unfold write_through. rewrite Ho, (obj_set_same_value _ _ _ Hl).
  destruct s; simpl in *. now rewrite Ho.
Qed.

Lemma write_through_Resources (s : service) (r r' : value) :
  resource_mapping s = Ok (r, true) ->
  custom (write_through s r') = custom s
  /\ plugins (write_through s r') = plugins s
  /\ prop (resources (write_through s r')) "Resources" = r'.
Proof.
  intros H. destruct (resource_mapping_aliased s r H) as [o [Ho Hl]].
  unfold write_through. rewrite Ho. simpl. repeat split.
  unfold prop. simpl. unfold get_own. now rewrite lookup_obj_set_same.
Qed.

End Frame.

Lemma map_fst_obj_set_present (o : props) k v v' :
  lookup k o = Some v -> map fst (obj_set o k v') = map fst o.
Proof.
  induction o as [|[k0 v0] r IH]; simpl; [discriminate|].
  destruct (k0 =? k) eqn:E; simpl; [reflexivity|].
  intros H. now rewrite IH.
Qed.

(** C10 (as amended).  [buckets()] leaves the service as it is when the
    extension is absent, when the template has no resource mapping, and when
    no secondary stack declares a bucket-type resource.  When the extension is
    present and the template has a resource mapping (an object), the merge is
    written into that mapping itself: the service afterwards is the service
    before with the [Resources] property of its [resources] section replaced,
    in place, by the merged mapping, and with nothing else changed; every
    other property of the section, and the order of its properties, is
    kept.  On well-shaped stacks the merged mapping holds, under each key,
    the entry of the last secondary stack that declares a bucket there, and
    the template's own entry otherwise.  (A secondary bucket under the key
    [__proto__] would be written through the prototype accessor; the
    statement leaves it out.) *)
Theorem buckets_writes_into_template (s : service) :
  (hasAdditionalStacksPlugin s <> Ok true -> snd (buckets s) = s)
  /\ (forall r, resource_mapping s = Ok (r, false) -> snd (buckets s) = s)
  /\ (forall stacks,
        getAdditionalStacks s = Ok stacks ->
        (forall stack key, In stack stacks -> declared_bucket stack key = None) ->
        snd (buckets s) = s)
  /\ (forall r stacks,
        resource_mapping s = Ok (r, true) ->
        hasAdditionalStacksPlugin s = Ok true ->
        getAdditionalStacks s = Ok stacks ->
        is_mapping r = true ->
        (forall stack, In stack stacks -> declared_bucket stack "__proto__" = None) ->
        exists o,
          resources s = VObj o
          /\ lookup "Resources" o = Some r
          /\ snd (buckets s)
             = {| custom := custom s;
                  plugins := plugins s;
                  resources :=
                    VObj (obj_set o "Resources" (fst (merge_stacks stacks r))) |}
          /\ map fst (obj_set o "Resources" (fst (merge_stacks stacks r)))
             = map fst o
          /\ (forall k, k <> "Resources" ->
                lookup k (obj_set o "Resources" (fst (merge_stacks stacks r)))
                = lookup k o)
          /\ (forallb stack_ok stacks = true ->
              forall key,
                lookup key (own_props (fst (merge_stacks stacks r)))
                = match secondary_entry stacks key with
                  | Some e => Some e
                  | None => lookup key (own_props r)
                  end)).
Proof.
  split; [|split; [|split]].
  - intros H. unfold buckets.
    destruct (resource_mapping s) as [[r a]|]; [|reflexivity].
    destruct (hasAdditionalStacksPlugin s) as [[|]|]; try reflexivity.
    congruence.
  - intros r H. unfold buckets. rewrite H.
    destruct (hasAdditionalStacksPlugin s) as [[|]|]; try reflexivity.
    destruct (getAdditionalStacks s); [|reflexivity].
    destruct (merge_stacks a r) as [r' [err|]]; reflexivity.
  - intros stacks Hs Hnone. unfold buckets.
    destruct (resource_mapping s) as [[r a]|] eqn:Hm; [|reflexivity].
    destruct (hasAdditionalStacksPlugin s) as [[|]|]; try reflexivity.
    rewrite Hs. assert (Hu := merge_stacks_unchanged stacks r Hnone).
    destruct (merge_stacks stacks r) as [r' thrown]. simpl in Hu. subst r'.
    destruct a.
    + rewrite (write_through_same _ _ Hm). destruct thrown; reflexivity.
    + destruct thrown; reflexivity.
  - intros r stacks Hm Hp Hg Hr _.
    destruct (resource_mapping_aliased s r Hm) as [o [Ho Hl]].
    exists o. split; [assumption|]. split; [assumption|].
    split; [|split; [|split]].
    + unfold buckets. rewrite Hm, Hp, Hg.
      destruct (merge_stacks stacks r) as [r' [err|]]; simpl;
        unfold write_through; now rewrite Ho.
    + apply (map_fst_obj_set_present _ _ _ _ Hl).
    + intros k Hk. now apply lookup_obj_set_other.
    + intros Hok key.
      destruct (merge_stacks_total stacks Hok r Hr) as [r' [Hms _]].
      rewrite Hms. simpl. apply (merge_stacks_lookup _ _ _ Hms).
Qed.

(** The service whose secondary stack holds only a topic is left as it is.
    The service with a [null] template entry and an [Outputs] section has its
    [Resources] replaced by the merged mapping, and its [Outputs] kept. *)
Lemma buckets_writes_into_template_examples :
  snd (buckets topic_stack_service) = topic_stack_service
  /\ snd (buckets null_primary_service)
     = {| custom := custom null_primary_service;
          plugins := plugins null_primary_service;
          resources :=
            obj [("Resources",
                  obj [("R1", bucket_resource (VStr "secondary"));
                       ("Events", bucket_resource (VStr "events"))]);
                 ("Outputs", obj [("Region", VStr "eu-west-1")])] |}.
Proof.
  split.
  - destruct (buckets_writes_into_template topic_stack_service)
      as [_ [_ [H _]]].
    apply (H [prop (prop (custom topic_stack_service) "additionalStacks") "data"]).
    + reflexivity.
    + intros stack key [<-|[]]. unfold declared_bucket.
      destruct (String.eqb_spec key "Events") as [->|Hne]; [reflexivity|].
      replace (keys_of
                 (prop (prop (prop (custom topic_stack_service)
                                "additionalStacks") "data") "Resources"))
        with ["Events"] by reflexivity.
      apply String.eqb_neq in Hne. cbn [existsb]. rewrite Hne.
      now rewrite andb_false_r.
  - destruct (buckets_writes_into_template null_primary_service)
      as [_ [_ [_ H]]].
    destruct (H (prop (resources null_primary_service) "Resources")
                [prop (prop (custom null_primary_service) "additionalStacks") "data"])
      as [o [Ho [_ [Hs _]]]].
    + reflexivity.
    + reflexivity.
    + reflexivity.
    + reflexivity.
    + intros stack [<-|[]]. reflexivity.
    + simpl in Ho. injection Ho as <-. rewrite Hs. reflexivity.
Defined.

(** C10, counterexample.  On the stacked service [buckets()] changes the
    service it was given: the template's [R1], named "primary" before the
    call, is the secondary stack's entry after it. *)
Lemma buckets_modifies_template :
  prop (prop (resources stacked_service) "Resources") "R1"
  = bucket_resource (VStr "primary")
  /\ prop (prop (resources (snd (buckets stacked_service))) "Resources") "R1"
     = bucket_resource (VStr "secondary")
  /\ snd (buckets stacked_service) <> stacked_service.
Proof.
  repeat split. vm_compute. discriminate.
Qed.

(* ===================================================================== *)
(** * Traces of the creation step *)
(* ===================================================================== *)

Section CreationStep.

Lemma created_app (a b : list event) : created (a ++ b) = (created a ++ created b)%list.
Proof.
  induction a as [|e r IH]; simpl; [reflexivity|].
  destruct e; simpl; now rewrite IH.
Qed.


Lemma created_create_calls i bs : created (create_calls i bs) = bs.
Proof.
  revert i. induction bs as [|b r IH]; simpl; intros i; [reflexivity|].
  now rewrite IH.
Qed.

Lemma created_settled (l : list (nat * option value)) :
  created (map (fun c => Settled (fst c) (snd c)) l) = [].
Proof. induction l; simpl; auto. Qed.



Lemma In_create_calls i bs e :
  In e (create_calls i bs) ->
  (exists b, e = CliLog ("creating bucket: " ++ to_string b))
  \/ (exists j b, e = CreateBucket j b /\ i <= j < i + length bs).
Proof.
  revert i. induction bs as [|b r IH]; simpl; intros i; [tauto|].
  intros [<-|[<-|H]].
  - left. eauto.
  - right. exists i, b. split; [reflexivity | lia].
  - destruct (IH _ H) as [?|[j [b' [-> Hj]]]]; [now left|].
    right. exists j, b'. split; [reflexivity | lia].
Qed.

(** The shape of the creation step's trace. *)
Lemma createBuckets_trace w port bs tr out :
  createBuckets w port bs = (tr, out) ->
  (bs = [] /\ tr = [] /\ out = Resolved)
  \/ (bs <> []
      /\ exists seen,
           Promise_all (length bs) (settlements w) = (seen, out)
           /\ tr = S3New true ("http://localhost:" ++ to_string port)
                     :: (create_calls 0 bs
                         ++ map (fun c => Settled (fst c) (snd c)) seen)%list).
Proof.
  unfold createBuckets. destruct bs as [|b r].
  - intros [= <- <-]. now left.
  - destruct (Promise_all (length (b :: r)) (settlements w)) as [seen o] eqn:E.
    intros [= <- <-]. right. split; [discriminate|]. now exists seen.
Qed.

Lemma createBuckets_created w port bs tr out :
  createBuckets w port bs = (tr, out) -> created tr = bs.
Proof.
  intros H. destruct (createBuckets_trace _ _ _ _ _ H)
    as [[-> [-> _]]|[_ [seen [_ ->]]]]; [reflexivity|].
  simpl. now rewrite created_app, created_create_calls, created_settled, app_nil_r.
Qed.


(** The creation step touches neither the file system nor the emulator. *)
Lemma createBuckets_only_creates w port bs tr out :
  createBuckets w port bs = (tr, out) ->
  filter is_fs_call tr = [] /\ filter is_emulator_call tr = []
  /\ closed tr = []
  /\ forall f ep, In (S3New f ep) tr ->
       f = true /\ ep = "http://localhost:" ++ to_string port.
Proof.
  intros H. destruct (createBuckets_trace _ _ _ _ _ H)
    as [[-> [-> _]]|[_ [seen [_ ->]]]].
  - repeat split; simpl in *; tauto.
  - assert (Hc : forall i,
              filter is_fs_call (create_calls i bs) = []
              /\ filter is_emulator_call (create_calls i bs) = []
              /\ closed (create_calls i bs) = []).
    { clear H. induction bs as [|b r IH]; simpl; intros i; [auto | apply IH]. }
    assert (Hs : filter is_fs_call (map (fun c => Settled (fst c) (snd c)) seen) = []
                 /\ filter is_emulator_call
                      (map (fun c => Settled (fst c) (snd c)) seen) = []
                 /\ closed (map (fun c => Settled (fst c) (snd c)) seen) = []).
    { clear. induction seen as [|c r IH]; simpl; [auto | apply IH]. }
    assert (Hcl : forall a b, closed (a ++ b) = (closed a ++ closed b)%list).
    { induction a as [|e r IH]; simpl; intros b; [reflexivity|].
      destruct e; simpl; now rewrite IH. }
    destruct (Hc 0) as [Hc1 [Hc2 Hc3]]. destruct Hs as [Hs1 [Hs2 Hs3]].
    simpl. rewrite !filter_app, Hcl, Hc1, Hc2, Hc3, Hs1, Hs2, Hs3.
    repeat split; try reflexivity.
    + destruct H0 as [[= <- <-]|H0]; [reflexivity|].
      apply in_app_iff in H0. destruct H0 as [H0|H0].
      * apply In_create_calls in H0.
        destruct H0 as [[b Hb]|[j [b [Hb _]]]]; discriminate.
      * apply in_map_iff in H0. destruct H0 as [c [Hc' _]]. discriminate.
    + destruct H0 as [[= <- <-]|H0]; [reflexivity|].
      apply in_app_iff in H0. destruct H0 as [H0|H0].
      * apply In_create_calls in H0.
        destruct H0 as [[b Hb]|[j [b [Hb _]]]]; discriminate.
      * apply in_map_iff in H0. destruct H0 as [c [Hc' _]]. discriminate.
Qed.

End CreationStep.

(* ===================================================================== *)
(** * The start sequence *)
(* ===================================================================== *)

(** Splits a run of [startHandler] into its paths: bucket resolution throws;
    no-start; [ensureDirSync] or [realpathSync] throws; the callback never
    comes, reports an error, or reports the bound port. *)
Ltac start_paths H :=
  unfold startHandler in H; cbv zeta in H;
  repeat match type of H with
    | context [match service_config ?s with _ => _ end] =>
        destruct (service_config s) as [?config|?err] eqn:?
    | context [buckets ?s] =>
        destruct (buckets s) as [[?named|?err] ?s'] eqn:?
    | context [if truthy (get_own ?o "noStart") then _ else _] =>
        destruct (truthy (get_own o "noStart")) eqn:?
    | context [createBuckets ?w ?port ?bs] =>
        destruct (createBuckets w port bs) as [?tr ?out] eqn:?
    | context [match ensureDirSync ?w ?d with _ => _ end] =>
        destruct (ensureDirSync w d) as [?err|] eqn:?
    | context [match realpathSync ?w ?d with _ => _ end] =>
        destruct (realpathSync w d) as [?directory|?err] eqn:?
    | context [match run_callback ?w with _ => _ end] =>
        destruct (run_callback w) as [[[?err ?s3Host] ?s3Port]|] eqn:?
    | context [if truthy ?e then _ else _] =>
        destruct (truthy e) eqn:?
    end;
  injection H as ? ? ?; subst.

(** Closes a goal from membership of an event in an explicit trace that does
    not hold it. *)
Ltac not_in_trace H :=
  simpl in H; repeat (destruct H as [H|H]; try discriminate H);
  try contradiction.

Section StartSequence.

Lemma In_S3rverRun_createBuckets w port bs tr out h :
  createBuckets w port bs = (tr, out) -> ~ In (S3rverRun h) tr.
Proof.
  intros H Hin. destruct (createBuckets_only_creates _ _ _ _ _ H) as [_ [He _]].
  assert (Hf : In (S3rverRun h) (filter is_emulator_call tr))
    by (apply filter_In; now split).
  rewrite He in Hf. exact Hf.
Qed.

End StartSequence.

(** C4.  Once the emulator has been asked to run, if its callback reports an
    error then the start promise rejects with that error, no create-bucket
    call is issued and no storage client is constructed. *)
Theorem startup_error_rejects_without_creating
  (w : env) (p p' : plugin) (tr : list event) (out : outcome)
  (h : server) (err s3Host s3Port : value) :
  startHandler w p = (p', tr, out) ->
  In (S3rverRun h) tr ->
  run_callback w = Some (err, s3Host, s3Port) ->
  truthy err = true ->
  out = Rejected err
  /\ created tr = []
  /\ endpoints tr = []
  /\ forall i b, ~ In (CreateBucket i b) tr.
Proof.
  intros H Hrun Hcb Herr. start_paths H;
    try (exfalso; eapply In_S3rverRun_createBuckets; eassumption);
    try (exfalso; not_in_trace Hrun; fail);
    try discriminate Hcb.
  - injection Hcb as <- <- <-.
    repeat split; try reflexivity.
    intros i b Hin. not_in_trace Hin.
  - injection Hcb as <- <- <-. congruence.
Qed.

(** On the ["logs"] service, an emulator that fails with [EADDRINUSE] rejects
    the start with that error before anything is created. *)
Lemma startup_error_rejects_port_in_use :
  let '(_, tr, out) := startHandler port_in_use_env (constructor logs_service (obj [])) in
  out = Rejected port_in_use
  /\ created tr = []
  /\ endpoints tr = []
  /\ forall i b, ~ In (CreateBucket i b) tr.
Proof.
  destruct (startHandler port_in_use_env (constructor logs_service (obj [])))
    as [[p' tr] out] eqn:E.
  apply (startup_error_rejects_without_creating
           port_in_use_env (constructor logs_service (obj [])) p' tr out
           1 port_in_use VUndefined VUndefined E).
  - vm_compute in E. injection E as <- <- <-. simpl. tauto.
  - reflexivity.
  - reflexivity.
Defined.



(** C6 (as amended).  Every storage client of a start is constructed with
    path-style addressing against [http://localhost:{port}]: the host is the
    literal [localhost] whatever host the merged configuration names, and the
    port is the configured one ([port || 4569]) on the no-start path and the
    bound port the emulator reported on the other. *)
Theorem creation_endpoint_is_localhost
  (w : env) (p p' : plugin) (tr : list event) (out : outcome)
  (config : value) (f : bool) (ep : string) :
  service_config (svc p) = Ok config ->
  startHandler w p = (p', tr, out) ->
  In (S3New f ep) tr ->
  f = true
  /\ exists port,
       ep = "http://localhost:" ++ to_string port
       /\ ((truthy (get_own (merge_options (options p) config) "noStart") = true
            /\ port = js_or (get_own (merge_options (options p) config) "port")
                        (VNum 4569))
           \/ (truthy (get_own (merge_options (options p) config) "noStart") = false
               /\ exists err s3Host,
                    run_callback w = Some (err, s3Host, port)
                    /\ truthy err = false)).
Proof.
  intros Hc H Hin. unfold startHandler in H. rewrite Hc in H.
  start_paths H; try (exfalso; not_in_trace Hin; fail).
  - destruct (createBuckets_only_creates _ _ _ _ _ Heqp1) as [_ [_ [_ Hep]]].
    destruct (Hep _ _ Hin) as [-> ->]. split; [reflexivity|].
    eexists. split; [reflexivity|]. left. split; reflexivity.
  - simpl in Hin.
    destruct Hin as [Hin|[Hin|[Hin|[Hin|[Hin|Hin]]]]]; try discriminate Hin.
    destruct (createBuckets_only_creates _ _ _ _ _ Heqp1) as [_ [_ [_ Hep]]].
    destruct (Hep _ _ Hin) as [-> ->]. split; [reflexivity|].
    eexists. split; [reflexivity|]. right. split; [reflexivity|]. eauto.
Qed.

(** On the hosted service the emulator is told to listen on [storage.test]
    and the client is pointed at [localhost]. *)
Lemma creation_endpoint_hosted :
  exists port,
    run_callback hosted_env = Some (VNull, VStr "storage.test", port)
    /\ "http://localhost:8000" = "http://localhost:" ++ to_string port.
Proof.
  destruct (startHandler hosted_env (constructor hosted_service (obj [])))
    as [[p' tr] out] eqn:E.
  assert (Hin : In (S3New true "http://localhost:8000") tr).
  { vm_compute in E. injection E as <- <- <-. simpl. tauto. }
  destruct (creation_endpoint_is_localhost
              hosted_env (constructor hosted_service (obj [])) p' tr out
              (obj [("buckets", mk_array ["extra"]);
                    ("host", VStr "storage.test");
                    ("port", VNum 8000)])
              true "http://localhost:8000" eq_refl E Hin)
    as [_ [port [Hep [[Hns _]|[_ [err [s3Host [Hcb _]]]]]]]].
  - vm_compute in Hns. discriminate Hns.
  - exists port. split; [|exact Hep].
    simpl in Hcb. injection Hcb as <- <- <-. reflexivity.
Defined.

(** C6, counterexample.  With [custom.s3.host: storage.test] the emulator is
    constructed for that host, but the single storage client is constructed
    against [http://localhost:8000], not [http://storage.test:8000]. *)
Lemma creation_endpoint_ignores_host :
  let '(_, tr, _) := startHandler hosted_env (constructor hosted_service (obj [])) in
  map o_hostname
      (filter_map (fun e => match e with S3rverNew o => Some o | _ => None end) tr)
  = [VStr "storage.test"]
  /\ endpoints tr = ["http://localhost:8000"]
  /\ spec_endpoint (VStr "storage.test") (VNum 8000) = "http://storage.test:8000"
  /\ endpoints tr <> [spec_endpoint (VStr "storage.test") (VNum 8000)].
Proof.
  vm_compute. repeat split. discriminate.
Qed.

(* ===================================================================== *)
(** * Joining the create-bucket promises *)
(* ===================================================================== *)

Section Join.

Lemma Promise_all_prefix n :
  forall l seen out,
    Promise_all n l = (seen, out) -> exists rest, l = (seen ++ rest)%list.
Proof.
  induction n as [|n IH]; simpl; intros l seen out.
  - intros [= <- <-]. now exists l.
  - destruct l as [|[i [e|]] r].
    + intros [= <- <-]. now exists [].
    + intros [= <- <-]. now exists r.
    + destruct (Promise_all n r) as [seen' out'] eqn:E.
      intros [= <- <-]. destruct (IH _ _ _ E) as [rest ->].
      now exists rest.
Qed.

(** [Promise.all] resolves only on the last of [n] fulfilments. *)
Lemma Promise_all_resolved n :
  forall l seen,
    Promise_all n l = (seen, Resolved) ->
    length seen = n /\ Forall (fun c => snd c = None) seen.
Proof.
  induction n as [|n IH]; simpl; intros l seen.
  - intros [= <-]. split; [reflexivity | constructor].
  - destruct l as [|[i [e|]] r]; try discriminate.
    destruct (Promise_all n r) as [seen' out'] eqn:E.
    intros [= <- ->]. destruct (IH _ _ E) as [Hl Hf].
    split; [simpl; now rewrite Hl | constructor; auto].
Qed.

(** A rejection among no more arrivals than there are promises is reached. *)
Lemma Promise_all_rejected l :
  forall n i e,
    length l <= n ->
    In (i, Some e) l ->
    exists j e', snd (Promise_all n l) = Rejected e' /\ In (j, Some e') l.
Proof.
  induction l as [|[k [e0|]] r IH]; simpl; intros n i e Hlen Hin; [tauto| |].
  - destruct n as [|n]; [lia|]. simpl. exists k, e0. split; [reflexivity | now left].
  - destruct n as [|n]; [lia|]. simpl.
    destruct Hin as [Hin|Hin]; [discriminate|].
    destruct (IH n i e ltac:(lia) Hin) as [j [e' [Hout Hj]]].
    destruct (Promise_all n r) as [seen out]. simpl in *.
    exists j, e'. split; [assumption | now right].
Qed.

(** Settlements of [n] promises, each at most once, are at most [n]. *)
Lemma wf_settlements_length n l : wf_settlements n l -> length l <= n.
Proof.
  intros [Hnd Hlt].
  rewrite <- (length_map fst l), <- (length_seq n 0).
  apply NoDup_incl_length; [assumption|].
  intros i Hi. apply in_map_iff in Hi. destruct Hi as [c [<- Hc]].
  rewrite Forall_forall in Hlt. apply in_seq. specialize (Hlt c Hc). lia.
Qed.

(** When all [n] have arrived, every promise has settled. *)
Lemma wf_settlements_cover n l :
  wf_settlements n l -> length l = n ->
  forall i, i < n -> In i (map fst l).
Proof.
  intros [Hnd Hlt] Hlen i Hi.
  apply (NoDup_length_incl Hnd (l' := seq 0 n)).
  - rewrite length_seq, length_map. lia.
  - intros j Hj. apply in_map_iff in Hj. destruct Hj as [c [<- Hc]].
    rewrite Forall_forall in Hlt. apply in_seq. specialize (Hlt c Hc). lia.
  - apply in_seq. lia.
Qed.

Lemma createBuckets_join w port bs tr out :
  createBuckets w port bs = (tr, out) ->
  wf_settlements (length bs) (settlements w) ->
  (out = Resolved ->
   forall i b, In (CreateBucket i b) tr -> In (Settled i None) tr)
  /\ (forall i e,
        In (i, Some e) (settlements w) ->
        exists j e', out = Rejected e' /\ In (j, Some e') (settlements w)).
Proof.
  intros H Hwf. assert (Hlen := wf_settlements_length _ _ Hwf).
  destruct (createBuckets_trace _ _ _ _ _ H)
    as [[-> [-> ->]]|[Hne [seen [Hp ->]]]].
  - split.
    + intros _ i b [].
    + intros i e Hin. simpl in Hlen.
      destruct (settlements w); [destruct Hin | simpl in Hlen; lia].
  - split.
    + intros -> i b Hin.
      destruct (Promise_all_resolved _ _ _ Hp) as [Hn Hnone].
      destruct (Promise_all_prefix _ _ _ _ Hp) as [rest Hrest].
      assert (Hl : length (settlements w) = length bs).
      { apply Nat.le_antisymm; [assumption|].
        rewrite Hrest, length_app. lia. }
      assert (Hseen : seen = settlements w).
      { rewrite Hrest in Hl. rewrite length_app in Hl.
        destruct rest; [now rewrite app_nil_r in Hrest | simpl in Hl; lia]. }
      assert (Hi : i < length bs).
      { destruct Hin as [Hin|Hin]; [discriminate|].
        apply in_app_iff in Hin. destruct Hin as [Hin|Hin].
        - apply In_create_calls in Hin.
          destruct Hin as [[b' Hb]|[j [b' [[= -> ->] Hj]]]]; [discriminate | lia].
        - apply in_map_iff in Hin. destruct Hin as [c [Hc _]]. discriminate. }
      assert (Hcov := wf_settlements_cover _ _ Hwf Hl i Hi).
      apply in_map_iff in Hcov. destruct Hcov as [[i' r] [Hfst Hc]].
      simpl in Hfst. subst i'.
      right. apply in_app_iff. right. apply in_map_iff.
      exists (i, r). split; [|now rewrite Hseen].
      rewrite Forall_forall in Hnone. rewrite <- Hseen in Hc.
      specialize (Hnone _ Hc). simpl in *. now subst r.
    + intros i e Hin.
      destruct (Promise_all_rejected _ _ _ _ Hlen Hin) as [j [e' [Hout Hj]]].
      rewrite Hp in Hout. simpl in Hout. eauto.
Qed.

End Join.

(** C5.  The start promise settles as the join of the create-bucket calls it
    issued: when it is resolved every issued call has resolved before; when
    any call rejects it is rejected, with the reason of a rejected call (the
    first to arrive).  On the empty list the creation step issues no call,
    constructs no client and resolves. *)
Theorem start_joins_creations
  (w : env) (p p' : plugin) (tr : list event) (out : outcome) :
  startHandler w p = (p', tr, out) ->
  wf_settlements (length (created tr)) (settlements w) ->
  (out = Resolved ->
   forall i b, In (CreateBucket i b) tr -> In (Settled i None) tr)
  /\ (forall i e,
        In (i, Some e) (settlements w) ->
        exists j e', out = Rejected e' /\ In (j, Some e') (settlements w))
  /\ (forall port, createBuckets w port [] = ([], Resolved)).
Proof.
  intros H Hwf.
  assert (Hnone : created tr = [] ->
            forall i e, In (i, Some e) (settlements w) ->
              exists j e', out = Rejected e' /\ In (j, Some e') (settlements w)).
  { intros Hc i e Hin. rewrite Hc in Hwf.
    apply wf_settlements_length in Hwf. simpl in Hwf.
    destruct (settlements w); [destruct Hin | simpl in Hwf; lia]. }
  split; [|split; [|reflexivity]]; start_paths H;
    try (intros _ i b Hin; exfalso; not_in_trace Hin; fail);
    try (apply Hnone; reflexivity).
  - rewrite (createBuckets_created _ _ _ _ _ Heqp1) in Hwf.
    apply (createBuckets_join _ _ _ _ _ Heqp1 Hwf).
  - intros Hout i b Hin. simpl in Hin.
    destruct Hin as [Hin|[Hin|[Hin|[Hin|[Hin|Hin]]]]]; try discriminate Hin.
    simpl in Hwf. rewrite (createBuckets_created _ _ _ _ _ Heqp1) in Hwf.
    do 5 right.
    apply (proj1 (createBuckets_join _ _ _ _ _ Heqp1 Hwf) Hout i b Hin).
  - rewrite (createBuckets_created _ _ _ _ _ Heqp1) in Hwf.
    apply (createBuckets_join _ _ _ _ _ Heqp1 Hwf).
  - simpl in Hwf. rewrite (createBuckets_created _ _ _ _ _ Heqp1) in Hwf.
    apply (createBuckets_join _ _ _ _ _ Heqp1 Hwf).
Qed.

(** On the ["logs"] service, with the call for ["extra"] failing while the one
    for ["logs"] is still in flight, the start is rejected with that failure;
    with both calls resolving, it resolves after both. *)
Lemma start_joins_creations_logs_extra :
  (let '(_, _, out) :=
     startHandler failing_create_env (constructor logs_service (obj [])) in
   exists j e',
     out = Rejected e' /\ In (j, Some e') (settlements failing_create_env))
  /\ (let '(_, tr, out) :=
        startHandler quiet_env (constructor logs_service (obj [])) in
      out = Resolved
      /\ In (Settled 0 None) tr /\ In (Settled 1 None) tr).
Proof.
  split.
  - destruct (startHandler failing_create_env (constructor logs_service (obj [])))
      as [[p' tr] out] eqn:E.
    apply (proj1 (proj2 (start_joins_creations _ _ _ _ _ E
             ltac:(vm_compute in E; injection E as <- <- <-;
                   split; repeat constructor; simpl; tauto)))
             1 bucket_exists).
    simpl. tauto.
  - destruct (startHandler quiet_env (constructor logs_service (obj [])))
      as [[p' tr] out] eqn:E.
    assert (Hwf : wf_settlements (length (created tr)) (settlements quiet_env)).
    { vm_compute in E. injection E as <- <- <-.
      split; repeat constructor; simpl; intuition discriminate. }
    assert (Hout : out = Resolved)
      by (vm_compute in E; injection E as <- <- <-; reflexivity).
    destruct (start_joins_creations _ _ _ _ _ E Hwf) as [Hres _].
    split; [assumption|]. split.
    + apply (Hres Hout 0 (VStr "logs")).
      vm_compute in E. injection E as <- <- <-. simpl. tauto.
    + apply (Hres Hout 1 (VStr "extra")).
      vm_compute in E. injection E as <- <- <-. simpl. tauto.
Defined.

(* ===================================================================== *)
(** * The server handle and the stop sequence *)
(* ===================================================================== *)

Section Handle.

(** A start either reaches [run], and then holds what [run] returned, or
    leaves the handle as it was. *)
Lemma startHandler_client w p p' tr out :
  startHandler w p = (p', tr, out) ->
  (client p' = Some (run_returns w) /\ In (S3rverRun (run_returns w)) tr)
  \/ (client p' = client p /\ forall h, ~ In (S3rverRun h) tr).
Proof.
  intros H. start_paths H;
    try (right; split; [reflexivity|]; intros h Hin;
         solve [ not_in_trace Hin
               | eapply In_S3rverRun_createBuckets; eassumption ]);
    left; (split; [reflexivity | simpl; tauto]).
Qed.

Lemma endHandler_no_run p h : ~ In (S3rverRun h) (fst (endHandler p)).
Proof.
  unfold endHandler. destruct (get_prop (options p) "noStart") as [v|e]; simpl;
    [|tauto].
  destruct (truthy v); simpl; [tauto|].
  destruct (client p); simpl; [|tauto].
  intros [H|[H|[]]]; discriminate.
Qed.

Lemma lifecycle_client ops :
  forall p,
    client (fst (lifecycle ops p)) <> None
    <-> (client p <> None \/ exists h, In (S3rverRun h) (snd (lifecycle ops p))).
Proof.
  induction ops as [|[w|] rest IH]; simpl; intros p.
  - split; [tauto|]. intros [H|[h []]]. assumption.
  - destruct (startHandler w p) as [[p' tr] out] eqn:E.
    specialize (IH p'). destruct (lifecycle rest p') as [p'' tr'].
    simpl in *. rewrite IH.
    destruct (startHandler_client _ _ _ _ _ E) as [[Hc Hin]|[Hc Hno]].
    + split; intros _.
      * right. exists (run_returns w). apply in_app_iff. now left.
      * left. rewrite Hc. discriminate.
    + rewrite Hc. split.
      * intros [H|[h Hh]]; [now left|].
        right. exists h. apply in_app_iff. now right.
      * intros [H|[h Hh]]; [now left|].
        apply in_app_iff in Hh. destruct Hh as [Hh|Hh].
        -- exfalso. apply (Hno h Hh).
        -- right. now exists h.
  - assert (Hno := endHandler_no_run p).
    destruct (endHandler p) as [tr r]. specialize (IH p).
    destruct (lifecycle rest p) as [p'' tr']. simpl in *. rewrite IH.
    split.
    + intros [H|[h Hh]]; [now left|].
      right. exists h. apply in_app_iff. now right.
    + intros [H|[h Hh]]; [now left|].
      apply in_app_iff in Hh. destruct Hh as [Hh|Hh].
      * exfalso. apply (Hno h Hh).
      * right. now exists h.
Qed.

(** [run] is reached exactly when bucket resolution returns, the merged
    [noStart] is falsy and both directory calls return. *)
Lemma run_reached_iff w p p' tr out config :
  service_config (svc p) = Ok config ->
  startHandler w p = (p', tr, out) ->
  (exists h, In (S3rverRun h) tr)
  <-> (exists named s' directory,
         buckets (svc p) = (Ok named, s')
         /\ truthy (get_own (merge_options (options p) config) "noStart") = false
         /\ ensureDirSync w
              (js_or (get_own (merge_options (options p) config) "directory")
                 (VStr "./buckets")) = None
         /\ realpathSync w
              (js_or (get_own (merge_options (options p) config) "directory")
                 (VStr "./buckets")) = Ok directory).
Proof.
  intros Hc H. unfold startHandler in H. rewrite Hc in H.
  start_paths H;
    (split;
     [ intros [h Hin];
       try (exfalso; not_in_trace Hin; fail);
       try (exfalso; eapply In_S3rverRun_createBuckets; eassumption);
       eauto 10
     | intros [named' [s'' [dir [Hb [Hns [He Hr]]]]]];
       try congruence;
       exists (run_returns w); simpl; tauto ]).
Qed.

End Handle.

(** C9 (as amended).  After any history of starts and stops of a freshly
    constructed plugin, the server handle is non-null if and only if some
    start reached the emulator's [run] call.  A start reaches [run] exactly
    when bucket resolution returns, the merged [noStart] is falsy and the
    directory calls return; from that moment it holds the instance [run]
    returned, whatever start-up reports later: the handle is set while the
    promise is still pending and stays set when the promise is rejected. *)
Theorem server_handle_is_set_by_run :
  (forall ops s opts,
     client (fst (lifecycle ops (constructor s opts))) <> None
     <-> exists h, In (S3rverRun h) (snd (lifecycle ops (constructor s opts))))
  /\ (forall w p p' tr out h,
        startHandler w p = (p', tr, out) ->
        In (S3rverRun h) tr ->
        client p' = Some h /\ h = run_returns w)
  /\ (forall w p p' tr out config,
        service_config (svc p) = Ok config ->
        startHandler w p = (p', tr, out) ->
        (exists h, In (S3rverRun h) tr)
        <-> (exists named s' directory,
               buckets (svc p) = (Ok named, s')
               /\ truthy (get_own (merge_options (options p) config) "noStart")
                  = false
               /\ ensureDirSync w
                    (js_or (get_own (merge_options (options p) config) "directory")
                       (VStr "./buckets")) = None
               /\ realpathSync w
                    (js_or (get_own (merge_options (options p) config) "directory")
                       (VStr "./buckets")) = Ok directory)).
Proof.
  split; [|split].
  - intros ops s opts. rewrite lifecycle_client. simpl. split.
    + intros [H|H]; [congruence | assumption].
    + intros H. now right.
  - intros w p p' tr out h H Hin.
    assert (Hh : h = run_returns w).
    { clear -H Hin. start_paths H;
        try (exfalso; not_in_trace Hin; fail);
        try (exfalso; eapply In_S3rverRun_createBuckets; eassumption).
      - simpl in Hin. destruct Hin as [Hin|[Hin|[Hin|[Hin|[Hin|[]]]]]];
          try discriminate Hin. now injection Hin as <-.
      - simpl in Hin. destruct Hin as [Hin|[Hin|[Hin|[Hin|[Hin|Hin]]]]];
          try discriminate Hin; [now injection Hin as <-|].
        exfalso. eapply In_S3rverRun_createBuckets; eassumption.
      - simpl in Hin. destruct Hin as [Hin|[Hin|[Hin|[Hin|[]]]]];
          try discriminate Hin. now injection Hin as <-. }
    split; [|assumption]. subst h.
    destruct (startHandler_client _ _ _ _ _ H) as [[Hc _]|[_ Hno]];
      [assumption | exfalso; apply (Hno _ Hin)].
  - intros w p p' tr out config. apply run_reached_iff.
Qed.

(** A start whose callback has not come yet, and a start whose start-up
    failed, both hold the handle; stopping does not clear it. *)
Lemma server_handle_set_while_starting :
  (let '(p', _, out) :=
     startHandler starting_env (constructor logs_service (obj [])) in
   client p' = Some 1 /\ 1 = run_returns starting_env)
  /\ client (fst (lifecycle [Start port_in_use_env; Stop]
                    (constructor logs_service (obj [])))) <> None.
Proof.
  split.
  - destruct (startHandler starting_env (constructor logs_service (obj [])))
      as [[p' tr] out] eqn:E.
    apply (proj1 (proj2 server_handle_is_set_by_run) _ _ _ _ _ 1 E).
    vm_compute in E. injection E as <- <- <-. simpl. tauto.
  - apply (proj1 server_handle_is_set_by_run).
    exists 1. vm_compute. tauto.
Defined.

(** C9, counterexample.  With [noStart] unset and an emulator that fails to
    start, the start promise is rejected, so no start sequence completed
    successfully, yet the handle is non-null afterwards; and while the
    callback has not come the promise is pending and the handle is already
    set. *)
Lemma server_handle_retained_on_failure :
  (let '(p', _, out) :=
     startHandler port_in_use_env (constructor logs_service (obj [])) in
   out = Rejected port_in_use /\ client p' = Some 1)
  /\ (let '(p', _, out) :=
        startHandler starting_env (constructor logs_service (obj [])) in
      out = Pending /\ client p' = Some 1).
Proof.
  vm_compute. repeat split.
Qed.

(* --------------------------------------------------------------------- *)
(** ** endHandler *)

(** [stop] is decided by the run options alone. *)
Lemma endHandler_run_option_set (p : plugin) :
  truthy (prop (options p) "noStart") = true ->
  endHandler p = ([], Ok tt).
Proof.
  unfold endHandler, prop.
  destruct (get_prop (options p) "noStart") as [v|e]; simpl.
  - now intros ->.
  - discriminate.
Qed.

Lemma endHandler_closes_once (p : plugin) (h : server) :
  is_nullish (options p) = false ->
  truthy (prop (options p) "noStart") = false ->
  client p = Some h ->
  endHandler p = ([ServerClose h; ConsoleLog "S3 local closed"], Ok tt)
  /\ closed (fst (endHandler p)) = [h].
Proof.
  intros Hn Hf Hc. unfold endHandler.
  rewrite get_prop_ok by assumption. rewrite Hf, Hc. simpl. now split.
Qed.

(** C7, the failing pair.  [noStart: true] comes from the service's
    [custom.s3] block and the run options do not mention it.  The start
    honours the flag: it resolves, runs no emulator and leaves the handle
    null.  The stop reads the run options only, finds the flag unset and calls
    [close()] on the null handle: it throws a [TypeError] instead of doing
    nothing. *)
Lemma stop_throws_when_no_start_is_in_service_config :
  let '(p', tr, out) :=
    startHandler quiet_env (constructor no_start_service (obj [])) in
  out = Resolved
  /\ filter is_emulator_call tr = []
  /\ client p' = None
  /\ endHandler p' = ([], Throw TypeError).
Proof.
  vm_compute. repeat split.
Qed.

(** The same defect the other way round: [--noStart] in the run options and
    [noStart: false] in the service.  The start follows the merged value and
    runs the emulator; the stop follows the run options and never closes
    it. *)
Lemma stop_leaves_server_when_service_overrides_no_start :
  let p := constructor
             {| custom := obj [("s3", obj [("noStart", VBool false)])];
                plugins := VUndefined;
                resources := VUndefined |}
             (obj [("noStart", VBool true)]) in
  let '(p', tr, out) := startHandler quiet_env p in
  out = Resolved
  /\ client p' = Some 1
  /\ In (S3rverRun 1) tr
  /\ endHandler p' = ([], Ok tt).
Proof.
  vm_compute. repeat split. tauto.
Qed.

(* ===================================================================== *)
(** * Further properties of the start sequence *)
(* ===================================================================== *)

Section SpawnPath.

Lemma not_emulator_call_in_creation w port bs tr out e :
  createBuckets w port bs = (tr, out) -> In e tr -> is_emulator_call e = false.
Proof.
  intros H Hin. destruct (createBuckets_only_creates _ _ _ _ _ H) as [_ [He _]].
  destruct (is_emulator_call e) eqn:E; [|reflexivity].
  assert (Hf : In e (filter is_emulator_call tr)) by (apply filter_In; now split).
  rewrite He in Hf. destruct Hf.
Qed.

Lemma filter_nil_suffix {A} (f : A -> bool) (a b : list A) :
  filter f (a ++ b) = [] -> filter f b = [].
Proof.
  rewrite filter_app. intros H. now apply app_eq_nil in H.
Qed.

End SpawnPath.

(** X1.  Whenever a start constructs the emulator, it has first ensured and
    then resolved the directory [directory || './buckets'], and the emulator
    gets: the canonical path [realpathSync] returned, [port || 4569],
    [host || 'localhost'] (the key is [host]), [cors || false] and
    [silent: false], all read from the merged configuration. *)
Theorem emulator_is_constructed_from_merged_config
  (w : env) (p p' : plugin) (tr : list event) (out : outcome)
  (config : value) (o : s3rver_options) :
  service_config (svc p) = Ok config ->
  startHandler w p = (p', tr, out) ->
  In (S3rverNew o) tr ->
  exists directory,
    ensureDirSync w
      (js_or (get_own (merge_options (options p) config) "directory")
         (VStr "./buckets")) = None
    /\ realpathSync w
         (js_or (get_own (merge_options (options p) config) "directory")
            (VStr "./buckets")) = Ok directory
    /\ o = emulator_options (merge_options (options p) config) directory
    /\ exists rest,
         tr = EnsureDirSync
                (js_or (get_own (merge_options (options p) config) "directory")
                   (VStr "./buckets"))
              :: RealpathSync
                   (js_or (get_own (merge_options (options p) config) "directory")
                      (VStr "./buckets"))
              :: S3rverNew o :: S3rverRun (run_returns w) :: rest.
Proof.
  intros Hc H Hin. unfold startHandler in H. rewrite Hc in H.
  start_paths H;
    try (exfalso; not_in_trace Hin; fail);
    try (exfalso;
         assert (Hf := not_emulator_call_in_creation _ _ _ _ _ _ Heqp1 Hin);
         discriminate Hf).
  - simpl in Hin. destruct Hin as [Hin|[Hin|[Hin|[Hin|[Hin|[]]]]]];
      try discriminate Hin. injection Hin as <-.
    exists directory. repeat split; try assumption. eexists. reflexivity.
  - simpl in Hin. destruct Hin as [Hin|[Hin|[Hin|[Hin|[Hin|Hin]]]]];
      try discriminate Hin.
    + injection Hin as <-.
      exists directory. repeat split; try assumption. eexists. reflexivity.
    + exfalso.
      assert (Hf := not_emulator_call_in_creation _ _ _ _ _ _ Heqp1 Hin).
      discriminate Hf.
  - simpl in Hin. destruct Hin as [Hin|[Hin|[Hin|[Hin|[]]]]];
      try discriminate Hin. injection Hin as <-.
    exists directory. repeat split; try assumption. eexists. reflexivity.
Qed.

(** The hosted service: the emulator listens on [storage.test:8000] and stores
    under the canonical form of the default directory. *)
Lemma emulator_is_constructed_hosted :
  exists directory,
    realpathSync hosted_env (VStr "./buckets") = Ok directory
    /\ {| o_port := VNum 8000; o_hostname := VStr "storage.test";
          o_silent := false; o_directory := VStr "/srv/buckets";
          o_cors := VBool false |}
       = emulator_options
           (merge_options (obj [])
              (obj [("buckets", mk_array ["extra"]);
                    ("host", VStr "storage.test");
                    ("port", VNum 8000)])) directory.
Proof.
  destruct (startHandler hosted_env (constructor hosted_service (obj [])))
    as [[p' tr] out] eqn:E.
  assert (Hin : In (S3rverNew
                      {| o_port := VNum 8000; o_hostname := VStr "storage.test";
                         o_silent := false; o_directory := VStr "/srv/buckets";
                         o_cors := VBool false |}) tr).
  { vm_compute in E. injection E as <- <- <-. simpl. tauto. }
  destruct (emulator_is_constructed_from_merged_config
              hosted_env (constructor hosted_service (obj [])) p' tr out
              (obj [("buckets", mk_array ["extra"]);
                    ("host", VStr "storage.test");
                    ("port", VNum 8000)]) _ eq_refl E Hin)
    as [directory [_ [Hr [Ho _]]]].
  exists directory. split; [exact Hr | exact Ho].
Defined.

(** X2.  When the merged [noStart] is falsy, every call that reaches the
    storage client (constructing it, creating a bucket) comes after the
    emulator was run and after its callback reported success: the trace before
    the call holds the [run] and the "started" log line with the bound port,
    and from the call on the trace touches neither the file system nor the
    emulator. *)
Theorem startup_precedes_creation
  (w : env) (p p' : plugin) (tr pre post : list event) (out : outcome)
  (config : value) (e : event) :
  service_config (svc p) = Ok config ->
  startHandler w p = (p', tr, out) ->
  truthy (get_own (merge_options (options p) config) "noStart") = false ->
  tr = (pre ++ e :: post)%list ->
  is_creation_call e = true ->
  In (S3rverRun (run_returns w)) pre
  /\ (exists err s3Host s3Port,
        run_callback w = Some (err, s3Host, s3Port)
        /\ truthy err = false
        /\ In (ConsoleLog ("S3 local started ( port:" ++ to_string s3Port ++ " )"))
              pre)
  /\ filter is_fs_call (e :: post) = []
  /\ filter is_emulator_call (e :: post) = [].
Proof.
  intros Hc H Hns Htr He. unfold startHandler in H. rewrite Hc in H.
  assert (Hin : In e tr) by (rewrite Htr; apply in_elt).
  start_paths H;
    try discriminate Hns;
    try (exfalso; simpl in Hin;
         repeat (destruct Hin as [Hin|Hin];
                 [subst e; discriminate He|]);
         exact Hin).
  clear Hin.
  destruct (createBuckets_only_creates _ _ _ _ _ Heqp1) as [Hfs [Hem _]].
  do 5 (destruct pre as [|? pre];
        [simpl in Htr; injection Htr as <-; discriminate He
        |simpl in Htr; injection Htr as <- Htr]).
  split; [simpl; tauto|]. split.
  - exists err, s3Host, s3Port. repeat split; try assumption. simpl. tauto.
  - rewrite Htr in Hfs, Hem.
    split; eapply filter_nil_suffix; eassumption.
Qed.

(** On the ["logs"] service the client is constructed after the emulator
    reported port 4569. *)
Lemma startup_precedes_creation_logs :
  In (S3rverRun 1)
     [EnsureDirSync (VStr "./buckets"); RealpathSync (VStr "./buckets");
      S3rverNew (emulator_options [("buckets", mk_array ["extra"])]
                   (VStr "/srv/buckets"));
      S3rverRun 1; ConsoleLog "S3 local started ( port:4569 )"]
  /\ (exists err s3Host s3Port,
        run_callback quiet_env = Some (err, s3Host, s3Port)
        /\ truthy err = false
        /\ In (ConsoleLog ("S3 local started ( port:" ++ to_string s3Port ++ " )"))
              [EnsureDirSync (VStr "./buckets"); RealpathSync (VStr "./buckets");
               S3rverNew (emulator_options [("buckets", mk_array ["extra"])]
                            (VStr "/srv/buckets"));
               S3rverRun 1; ConsoleLog "S3 local started ( port:4569 )"])
  /\ filter is_fs_call
       [S3New true "http://localhost:4569";
        CliLog "creating bucket: logs"; CreateBucket 0 (VStr "logs");
        CliLog "creating bucket: extra"; CreateBucket 1 (VStr "extra");
        Settled 0 None; Settled 1 None] = []
  /\ filter is_emulator_call
       [S3New true "http://localhost:4569";
        CliLog "creating bucket: logs"; CreateBucket 0 (VStr "logs");
        CliLog "creating bucket: extra"; CreateBucket 1 (VStr "extra");
        Settled 0 None; Settled 1 None] = [].
Proof.
  destruct (startHandler quiet_env (constructor logs_service (obj [])))
    as [[p' tr] out] eqn:E.
  apply (startup_precedes_creation
           quiet_env (constructor logs_service (obj [])) p' tr _ _ out
           (obj [("buckets", mk_array ["extra"])])).
  - reflexivity.
  - exact E.
  - reflexivity.
  - vm_compute in E. injection E as <- <- <-. reflexivity.
  - reflexivity.
Defined.



(** X4.  When the merged [noStart] is falsy and [ensureDirSync] or
    [realpathSync] throws, the start promise is rejected with the thrown
    error; no emulator is constructed, nothing is created, and the handle is
    the one the plugin had. *)
Theorem directory_failure_rejects_before_emulator
  (w : env) (p : plugin) (config : value) (named : list value) (s' : service)
  (e : value) :
  service_config (svc p) = Ok config ->
  buckets (svc p) = (Ok named, s') ->
  truthy (get_own (merge_options (options p) config) "noStart") = false ->
  ensureDirSync w
    (js_or (get_own (merge_options (options p) config) "directory")
       (VStr "./buckets")) = Some e
  \/ (ensureDirSync w
        (js_or (get_own (merge_options (options p) config) "directory")
           (VStr "./buckets")) = None
      /\ realpathSync w
           (js_or (get_own (merge_options (options p) config) "directory")
              (VStr "./buckets")) = Throw e) ->
  exists tr,
    startHandler w p = (with_service p s', tr, Rejected e)
    /\ filter is_emulator_call tr = []
    /\ created tr = []
    /\ endpoints tr = []
    /\ closed tr = [].
Proof.
  intros Hc Hb Hns Hfs. unfold startHandler. rewrite Hc, Hb. cbv zeta.
  rewrite Hns. destruct Hfs as [He|[He Hr]].
  - rewrite He. eexists. split; [reflexivity|]. repeat split.
  - rewrite He, Hr. eexists. split; [reflexivity|]. repeat split.
Qed.

(** On a full disk the ["logs"] service is never started. *)
Lemma directory_failure_full_disk :
  exists tr,
    startHandler full_disk_env (constructor logs_service (obj []))
    = (constructor logs_service (obj []), tr, Rejected no_space)
    /\ filter is_emulator_call tr = []
    /\ created tr = []
    /\ endpoints tr = []
    /\ closed tr = [].
Proof.
  apply (directory_failure_rejects_before_emulator
           full_disk_env (constructor logs_service (obj []))
           (obj [("buckets", mk_array ["extra"])]) [VStr "logs"] logs_service
           no_space).
  - reflexivity.
  - reflexivity.
  - reflexivity.
  - left. reflexivity.
Defined.

(** X5.  A start that has run the emulator and never gets the callback stays
    pending for ever: it neither resolves nor rejects, and creates nothing. *)
Theorem start_pending_without_callback
  (w : env) (p p' : plugin) (tr : list event) (out : outcome) (h : server) :
  startHandler w p = (p', tr, out) ->
  In (S3rverRun h) tr ->
  run_callback w = None ->
  out = Pending /\ created tr = [] /\ endpoints tr = [] /\ closed tr = [].
Proof.
  intros H Hrun Hcb. start_paths H;
    try (exfalso; eapply In_S3rverRun_createBuckets; eassumption);
    try (exfalso; not_in_trace Hrun; fail);
    try discriminate Hcb.
  repeat split.
Qed.

Lemma start_pending_while_starting :
  let '(_, tr, out) :=
    startHandler starting_env (constructor logs_service (obj [])) in
  out = Pending /\ created tr = [] /\ endpoints tr = [] /\ closed tr = [].
Proof.
  destruct (startHandler starting_env (constructor logs_service (obj [])))
    as [[p' tr] out] eqn:E.
  apply (start_pending_without_callback
           starting_env (constructor logs_service (obj [])) p' tr out 1 E).
  - vm_compute in E. injection E as <- <- <-. simpl. tauto.
  - reflexivity.
Defined.

(* ===================================================================== *)
(** * Further properties of bucket resolution *)
(* ===================================================================== *)

Section Detection.

Lemma strict_eq_str_true (v : value) s : strict_eq_str v s = true <-> v = VStr s.
Proof.
  destruct v; simpl; try (split; [discriminate | intros H; discriminate H]).
  rewrite String.eqb_eq. split; [now intros -> | now intros [= ->]].
Qed.

Lemma index_of_str_found needle (l : list value) :
  forall i, (0 <= i)%Z ->
    (0 <=? index_of_str needle l i)%Z = true <-> In (VStr needle) l.
Proof.
  induction l as [|v r IH]; simpl; intros i Hi.
  - split; [discriminate | tauto].
  - destruct (strict_eq_str v needle) eqn:E.
    + apply strict_eq_str_true in E. subst v.
      split; [now left | intros _; now apply Z.leb_le].
    + rewrite IH by lia. split; [now right|].
      intros [H|H]; [|assumption].
      apply strict_eq_str_true in H. congruence.
Qed.

Lemma with_service_same (p : plugin) : with_service p (svc p) = p.
Proof. now destruct p. Qed.

(** A start whose bucket resolution throws is rejected with what was thrown,
    before any collaborator is called. *)
Lemma startHandler_resolution_throws w p err s' :
  buckets (svc p) = (Throw err, s') ->
  startHandler w p = (with_service p s', [], Rejected err).
Proof.
  intros H. unfold startHandler. rewrite service_config_total, H. reflexivity.
Qed.

End Detection.

(** X6.  When [plugins] is an array the extension is detected exactly when
    one of its elements is the string ["serverless-plugin-additional-stacks"]:
    the test never throws, an empty list gives [false], and elements that are
    not strings are passed over. *)
Theorem plugin_is_detected_in_array (s : service) (vs : list value) :
  plugins s = VArr vs ->
  exists b,
    hasAdditionalStacksPlugin s = Ok b
    /\ (b = true <-> In (VStr plugin_name) vs).
Proof.
  intros H. unfold hasAdditionalStacksPlugin. rewrite H. simpl.
  eexists. split; [reflexivity|].
  apply index_of_str_found. lia.
Qed.

Lemma plugin_is_detected_after_offline :
  exists b,
    hasAdditionalStacksPlugin no_stacks_service = Ok b
    /\ (b = true
        <-> In (VStr plugin_name) [VStr "serverless-offline"; VStr plugin_name]).
Proof.
  apply (plugin_is_detected_in_array no_stacks_service
           [VStr "serverless-offline"; VStr plugin_name]).
  reflexivity.
Defined.

(** X7.  When [plugins] is an object (the [{modules: [...]}] form of the
    plugin list) [plugins.indexOf] is not a function: [buckets()] throws a
    [TypeError] without touching the service, and every start is rejected
    with it before any collaborator is called, whatever the configuration. *)
Theorem object_plugin_list_rejects_start
  (w : env) (p : plugin) (o : props) :
  plugins (svc p) = VObj o ->
  buckets (svc p) = (Throw TypeError, svc p)
  /\ startHandler w p = (p, [], Rejected TypeError).
Proof.
  intros H.
  assert (Hb : buckets (svc p) = (Throw TypeError, svc p)).
  { unfold buckets.
    destruct (resource_mapping_total (svc p)) as [r [a [-> _]]].
    unfold hasAdditionalStacksPlugin. rewrite H. reflexivity. }
  split; [assumption|].
  rewrite (startHandler_resolution_throws _ _ _ _ Hb).
  now rewrite with_service_same.
Qed.

Lemma object_plugin_list_rejects_logs :
  buckets object_plugins_service = (Throw TypeError, object_plugins_service)
  /\ startHandler quiet_env (constructor object_plugins_service (obj []))
     = (constructor object_plugins_service (obj []), [], Rejected TypeError).
Proof.
  apply (object_plugin_list_rejects_start
           quiet_env (constructor object_plugins_service (obj []))
           [("modules", mk_array [plugin_name])]).
  reflexivity.
Defined.

(** X8.  When the extension is listed and the service has no [custom] section
    ([custom] is [undefined] or [null]), [getAdditionalStacks] reads
    [custom.additionalStacks] unguarded and throws a [TypeError]: [buckets()]
    throws it, the service is untouched, and every start is rejected with it
    before any collaborator is called. *)
Theorem missing_custom_rejects_start (w : env) (p : plugin) :
  hasAdditionalStacksPlugin (svc p) = Ok true ->
  is_nullish (custom (svc p)) = true ->
  getAdditionalStacks (svc p) = Throw TypeError
  /\ buckets (svc p) = (Throw TypeError, svc p)
  /\ startHandler w p = (p, [], Rejected TypeError).
Proof.
  intros Hp Hn.
  assert (Hg : getAdditionalStacks (svc p) = Throw TypeError).
  { unfold getAdditionalStacks.
    destruct (custom (svc p)); simpl in *; try discriminate; reflexivity. }
  assert (Hb : buckets (svc p) = (Throw TypeError, svc p)).
  { unfold buckets.
    destruct (resource_mapping_total (svc p)) as [r [a [-> _]]].
    now rewrite Hp, Hg. }
  repeat split; try assumption.
  rewrite (startHandler_resolution_throws _ _ _ _ Hb).
  now rewrite with_service_same.
Qed.

Lemma missing_custom_rejects_logs :
  getAdditionalStacks no_custom_service = Throw TypeError
  /\ buckets no_custom_service = (Throw TypeError, no_custom_service)
  /\ startHandler quiet_env (constructor no_custom_service (obj []))
     = (constructor no_custom_service (obj []), [], Rejected TypeError).
Proof.
  apply (missing_custom_rejects_start
           quiet_env (constructor no_custom_service (obj []))).
  - reflexivity.
  - reflexivity.
Defined.

(** X9.  When the extension is listed but [custom.additionalStacks] is absent
    or falsy, there is no stack to merge: [buckets()] returns what the walk
    over the template's own mapping returns and leaves the service as it
    is. *)
Theorem no_additional_stacks_is_plain_walk
  (s : service) (r : value) (aliased : bool) :
  resource_mapping s = Ok (r, aliased) ->
  hasAdditionalStacksPlugin s = Ok true ->
  is_nullish (custom s) = false ->
  truthy (prop (custom s) "additionalStacks") = false ->
  getAdditionalStacks s = Ok []
  /\ buckets s = (named_buckets r, s).
Proof.
  intros Hm Hp Hn Hf.
  assert (Hg : getAdditionalStacks s = Ok []).
  { unfold getAdditionalStacks. rewrite get_prop_ok by assumption. simpl.
    unfold js_or. rewrite Hf. reflexivity. }
  split; [assumption|].
  unfold buckets. rewrite Hm, Hp, Hg. simpl.
  destruct aliased; [|reflexivity].
  now rewrite (write_through_same _ _ Hm).
Qed.

Lemma no_additional_stacks_logs :
  getAdditionalStacks no_stacks_service = Ok []
  /\ buckets no_stacks_service = (named_buckets logs_mapping, no_stacks_service).
Proof.
  apply (no_additional_stacks_is_plain_walk no_stacks_service logs_mapping true).
  - reflexivity.
  - reflexivity.
  - reflexivity.
  - reflexivity.
Defined.

(** X10.  A service without a template, or whose template has no [Resources]
    (either of them absent or falsy), resolves to the empty list when the
    extension is not listed: it is not an error, and the service is
    untouched. *)
Theorem missing_resources_resolve_to_nothing (s : service) :
  truthy (resources s) = false
  \/ truthy (prop (resources s) "Resources") = false ->
  hasAdditionalStacksPlugin s = Ok false ->
  buckets s = (Ok [], s).
Proof.
  intros H Hp.
  assert (Hm : resource_mapping s = Ok (VObj [], false)).
  { unfold resource_mapping, js_and_then.
    destruct (truthy (resources s)) eqn:E.
    - destruct H as [H|H]; [discriminate|].
      rewrite get_prop_ok by now apply truthy_not_nullish.
      simpl. now rewrite H.
    - simpl. now rewrite E. }
  unfold buckets. now rewrite Hm, Hp.
Qed.

Lemma missing_resources_hosted :
  buckets hosted_service = (Ok [], hosted_service).
Proof.
  apply missing_resources_resolve_to_nothing.
  - left. reflexivity.
  - reflexivity.
Defined.

Section NullEntries.

Lemma bucket_name_or_null_nullish (r : value) key :
  is_nullish r = false ->
  is_nullish (prop r key) = true ->
  bucket_name_or_null r key = Throw TypeError.
Proof.
  intros Hr He. unfold bucket_name_or_null.
  rewrite (get_prop_ok r) by assumption. simpl.
  destruct (prop r key); simpl in *; try discriminate; reflexivity.
Qed.

Lemma mapM_throws {A B} (f : A -> result B) (l : list A) (err : value) :
  (forall a, In a l -> (exists b, f a = Ok b) \/ f a = Throw err) ->
  (exists a, In a l /\ f a = Throw err) ->
  mapM f l = Throw err.
Proof.
  induction l as [|a r IH]; simpl; intros Hall [x [Hin Hx]]; [destruct Hin|].
  destruct (Hall a (or_introl eq_refl)) as [[b Hb]|Ha].
  - rewrite Hb. simpl.
    destruct Hin as [<-|Hin]; [congruence|].
    rewrite IH; [reflexivity | auto | eauto].
  - now rewrite Ha.
Qed.

End NullEntries.

(** X11.  One entry that is [null] or [undefined] (a resource key without a
    body) makes the whole walk throw a [TypeError], whatever the other
    entries are: no name is returned at all. *)
Theorem null_entry_fails_resolution (r : value) :
  is_nullish r = false ->
  Exists (fun e => is_nullish e = true) (entries_of r) ->
  named_buckets r = Throw TypeError.
Proof.
  intros Hr He. unfold named_buckets.
  rewrite Object_keys_ok by assumption. simpl.
  rewrite (mapM_throws _ _ TypeError); [reflexivity| |].
  - intros key _. destruct (is_nullish (prop r key)) eqn:E.
    + right. now apply bucket_name_or_null_nullish.
    + left. eexists. now apply bucket_name_or_null_ok.
  - apply Exists_exists in He. destruct He as [e [Hin Hn]].
    unfold entries_of in Hin. apply in_map_iff in Hin.
    destruct Hin as [key [<- Hkey]].
    exists key. split; [assumption|]. now apply bucket_name_or_null_nullish.
Qed.

Lemma null_entry_fails_after_named_bucket :
  named_buckets null_entry_mapping = Throw TypeError.
Proof.
  apply null_entry_fails_resolution.
  - reflexivity.
  - apply Exists_cons_tl. apply Exists_cons_hd. reflexivity.
Defined.

(* ===================================================================== *)
(** * Further properties of the start / stop history *)
(* ===================================================================== *)

Section History.

Lemma prop_own_props (v : value) k :
  k <> "length" -> prop v k = get_own (own_props v) k.
Proof.
  intros Hk. apply String.eqb_neq in Hk. unfold prop.
  destruct v as [| | | | s|l|o]; simpl; try reflexivity.
  - now rewrite Hk.
  - now rewrite Hk.
  - unfold get_own. change (map (fun k0 => (k0, match lookup k0 o with
                                                | Some v => v
                                                | None => VUndefined
                                                end)) (own_keys o))
      with (own_props (VObj o)).
    now rewrite lookup_own_props_obj.
Qed.

(** A key the service block does not have is read from the run options. *)
Lemma merged_key_from_run_options (opts config : value) k :
  k <> "length" ->
  lookup k (own_props config) = None ->
  get_own (merge_options opts config) k = prop opts k.
Proof.
  intros Hk Hc. rewrite (prop_own_props _ _ Hk).
  unfold get_own, merge_options, Object_assign, assign_from. simpl.
  rewrite !lookup_assign_from by apply NoDup_own_props.
  rewrite Hc. simpl. destruct (lookup k (own_props opts)); reflexivity.
Qed.

Lemma startHandler_options w p p' tr out :
  startHandler w p = (p', tr, out) -> options p' = options p.
Proof.
  intros H. start_paths H; reflexivity.
Qed.

Lemma run_sets_client w p p' tr out h :
  startHandler w p = (p', tr, out) ->
  In (S3rverRun h) tr ->
  client p' = Some h.
Proof.
  intros H Hin.
  start_paths H;
    try (exfalso; not_in_trace Hin; fail);
    try (exfalso; eapply In_S3rverRun_createBuckets; eassumption);
    simpl in Hin;
    repeat (destruct Hin as [Hin|Hin];
            [try discriminate Hin; injection Hin as <-; reflexivity|]);
    try contradiction;
    exfalso; eapply In_S3rverRun_createBuckets; eassumption.
Qed.

Lemma closed_app (a b : list event) : closed (a ++ b) = (closed a ++ closed b)%list.
Proof.
  induction a as [|e r IH]; simpl; [reflexivity|].
  destruct e; simpl; now rewrite IH.
Qed.

Lemma last_run_app (a b : list event) cur :
  last_run (a ++ b) cur = last_run b (last_run a cur).
Proof.
  revert cur. induction a as [|e r IH]; simpl; intros cur; [reflexivity|].
  destruct e; apply IH.
Qed.

Lemma closes_latest_app (a b : list event) cur :
  closes_latest (a ++ b) cur
  = closes_latest a cur && closes_latest b (last_run a cur).
Proof.
  revert cur. induction a as [|e r IH]; simpl; intros cur; [reflexivity|].
  destruct e; try apply IH.
  destruct cur as [c|]; [|reflexivity].
  rewrite IH. now rewrite andb_assoc.
Qed.

(** A trace without [run] and without [close()] changes nothing. *)
Lemma quiet_trace (tr : list event) cur :
  filter is_emulator_call tr = [] -> closed tr = [] ->
  last_run tr cur = cur /\ closes_latest tr cur = true.
Proof.
  induction tr as [|e r IH]; simpl; intros Hf Hc; [now split|].
  destruct e; simpl in *; try discriminate; auto.
Qed.

Lemma startHandler_history w p p' tr out :
  startHandler w p = (p', tr, out) ->
  last_run tr (client p) = client p'
  /\ forall cur, closes_latest tr cur = true.
Proof.
  intros H. start_paths H; simpl;
    try (split; [reflexivity | intros cur; reflexivity]);
    destruct (createBuckets_only_creates _ _ _ _ _ Heqp1) as [_ [Hem [Hcl _]]];
    (split; [|intros cur]); apply (quiet_trace _ _ Hem Hcl).
Qed.

Lemma endHandler_history p :
  last_run (fst (endHandler p)) (client p) = client p
  /\ closes_latest (fst (endHandler p)) (client p) = true.
Proof.
  unfold endHandler. destruct (get_prop (options p) "noStart") as [v|e]; simpl;
    [|now split].
  destruct (truthy v); simpl; [now split|].
  destruct (client p) as [h|]; simpl; [|now split].
  now rewrite Nat.eqb_refl.
Qed.

End History.

(** X12.  When the service's [custom.s3] block does not have a [noStart] key,
    start and stop agree on the flag of the run options.  With the flag set,
    the start runs no emulator, leaves the handle alone, and the stop after it
    does nothing and returns.  With the flag unset, if the start ran the
    emulator then the stop after it calls [close()] exactly once, on the
    instance that [run] returned, logs, and returns. *)
Theorem stop_matches_start_for_run_option_flag
  (w : env) (p p' : plugin) (tr : list event) (out : outcome) (config : value) :
  service_config (svc p) = Ok config ->
  lookup "noStart" (own_props config) = None ->
  is_nullish (options p) = false ->
  startHandler w p = (p', tr, out) ->
  (truthy (prop (options p) "noStart") = true ->
   filter is_emulator_call tr = []
   /\ client p' = client p
   /\ endHandler p' = ([], Ok tt))
  /\ (truthy (prop (options p) "noStart") = false ->
      forall h, In (S3rverRun h) tr ->
        endHandler p' = ([ServerClose h; ConsoleLog "S3 local closed"], Ok tt)
        /\ closed (fst (endHandler p')) = [h]).
Proof.
  intros Hc Hk Hn H.
  assert (Hm : get_own (merge_options (options p) config) "noStart"
               = prop (options p) "noStart")
    by (apply merged_key_from_run_options; [discriminate | assumption]).
  assert (Ho := startHandler_options _ _ _ _ _ H).
  split.
  - intros Hset. split; [|split].
    + unfold startHandler in H. rewrite Hc in H. start_paths H;
        try reflexivity; try congruence.
      now destruct (createBuckets_only_creates _ _ _ _ _ Heqp1) as [_ [He _]].
    + destruct (startHandler_client _ _ _ _ _ H) as [[_ Hin]|[Hcl _]];
        [|assumption].
      exfalso. unfold startHandler in H. rewrite Hc in H. start_paths H;
        try congruence; try (not_in_trace Hin; fail).
      eapply In_S3rverRun_createBuckets; eassumption.
    + apply endHandler_run_option_set. now rewrite Ho.
  - intros Hunset h Hin.
    apply endHandler_closes_once.
    + now rewrite Ho.
    + now rewrite Ho.
    + apply (run_sets_client _ _ _ _ _ _ H Hin).
Qed.

(** The ["logs"] service, whose [custom.s3] only lists a bucket: started
    without [--noStart], stopped by closing instance 1. *)
Lemma stop_matches_start_logs :
  let '(p', _, _) := startHandler quiet_env (constructor logs_service (obj [])) in
  endHandler p' = ([ServerClose 1; ConsoleLog "S3 local closed"], Ok tt)
  /\ closed (fst (endHandler p')) = [1].
Proof.
  destruct (startHandler quiet_env (constructor logs_service (obj [])))
    as [[p' tr] out] eqn:E.
  apply (proj2 (stop_matches_start_for_run_option_flag
                  quiet_env (constructor logs_service (obj [])) p' tr out
                  (obj [("buckets", mk_array ["extra"])])
                  eq_refl eq_refl eq_refl E)).
  - reflexivity.
  - vm_compute in E. injection E as <- <- <-. simpl. tauto.
Defined.

(** X13.  Over any history of starts and stops, from any plugin state: the
    handle is at every moment the instance returned by the latest [run] (the
    initial handle before the first), it is never cleared, and every
    [close()] is called on that instance.  So once a later start has run an
    emulator, an instance run by an earlier start is never closed. *)
Theorem handle_is_latest_run (ops : list op) (p : plugin) :
  client (fst (lifecycle ops p)) = last_run (snd (lifecycle ops p)) (client p)
  /\ closes_latest (snd (lifecycle ops p)) (client p) = true.
Proof.
  revert p. induction ops as [|[w|] rest IH]; simpl; intros p.
  - now split.
  - destruct (startHandler w p) as [[p' tr] out] eqn:E.
    destruct (startHandler_history _ _ _ _ _ E) as [Hl Hc].
    specialize (IH p'). destruct (lifecycle rest p') as [p'' tr'].
    simpl in *. rewrite last_run_app, closes_latest_app, Hl, Hc.
    exact IH.
  - destruct (endHandler_history p) as [Hl Hc].
    destruct (endHandler p) as [tr r].
    specialize (IH p). destruct (lifecycle rest p) as [p'' tr'].
    simpl in *. rewrite last_run_app, closes_latest_app, Hl, Hc.
    exact IH.
Qed.

(** X14.  A stop does not clear the handle: with the run-option flag unset,
    each of [n] stops in a row calls [close()] again on the same instance. *)
Theorem repeated_stops_close_again (n : nat) (p : plugin) (h : server) :
  is_nullish (options p) = false ->
  truthy (prop (options p) "noStart") = false ->
  client p = Some h ->
  closed (snd (lifecycle (repeat Stop n) p)) = repeat h n
  /\ client (fst (lifecycle (repeat Stop n) p)) = Some h.
Proof.
  intros Hn Hf Hc. induction n as [|n IH]; simpl; [now split|].
  destruct (endHandler_closes_once p h Hn Hf Hc) as [He _].
  rewrite He. destruct (lifecycle (repeat Stop n) p) as [p'' tr'].
  simpl in *. destruct IH as [-> ->]. now split.
Qed.

Lemma repeated_stops_close_twice :
  closed (snd (lifecycle (repeat Stop 2)
                 (with_client (constructor logs_service (obj [])) 1)))
  = repeat 1 2
  /\ client (fst (lifecycle (repeat Stop 2)
                    (with_client (constructor logs_service (obj [])) 1)))
     = Some 1.
Proof.
  apply (repeated_stops_close_again
           2 (with_client (constructor logs_service (obj [])) 1) 1).
  - reflexivity.
  - reflexivity.
  - reflexivity.
Defined.

(* ===================================================================== *)
(** * How the creation step settles *)
(* ===================================================================== *)

Section Settling.



End Settling.



(* ===================================================================== *)
(** * Resolving twice *)
(* ===================================================================== *)

Section Twice.

Lemma obj_set_absorb (o : props) k e1 e2 :
  obj_set (obj_set o k e1) k e2 = obj_set o k e2.
Proof.
  induction o as [|[k0 v0] r IH]; simpl.
  - now rewrite String.eqb_refl.
  - destruct (k0 =? k) eqn:E; simpl; rewrite E; [reflexivity | now rewrite IH].
Qed.

Lemma obj_set_commute (o : props) k1 k2 e1 e2 :
  k1 <> k2 -> In k1 (map fst o) ->
  obj_set (obj_set o k1 e1) k2 e2 = obj_set (obj_set o k2 e2) k1 e1.
Proof.
  intros Hne. induction o as [|[k0 v0] r IH]; simpl; intros Hin; [destruct Hin|].
  destruct (String.eqb_spec k0 k1) as [E1|H1];
    destruct (String.eqb_spec k0 k2) as [E2|H2]; simpl.
  - congruence.
  - subst k0. rewrite String.eqb_refl.
    destruct (String.eqb_spec k1 k2); [congruence | reflexivity].
  - subst k0. rewrite String.eqb_refl.
    destruct (String.eqb_spec k2 k1); [congruence | reflexivity].
  - destruct (String.eqb_spec k0 k1); [congruence|].
    destruct (String.eqb_spec k0 k2); [congruence|].
    rewrite IH; [reflexivity|]. destruct Hin; [congruence | assumption].
Qed.

Lemma In_keys_obj_set (o : props) k k' v :
  In k (map fst o) -> In k (map fst (obj_set o k' v)).
Proof.
  induction o as [|[k0 v0] r IH]; simpl; [tauto|].
  destruct (k0 =? k'); simpl; tauto.
Qed.

(** A write that is overwritten later, to a key that exists, leaves no
    trace. *)
Lemma write_all_overwritten (ws : props) :
  forall o k e,
    In k (map fst ws) -> In k (map fst o) ->
    write_all ws (obj_set o k e) = write_all ws o.
Proof.
  unfold write_all. induction ws as [|[k' e'] r IH]; simpl; intros o k e Hw Ho;
    [destruct Hw|].
  destruct (string_dec k' k) as [->|Hne].
  - now rewrite obj_set_absorb.
  - destruct Hw as [Hw|Hw]; [congruence|].
    rewrite obj_set_commute by (congruence || assumption).
    apply IH; [assumption | now apply In_keys_obj_set].
Qed.

Lemma last_write_None (ws : props) k :
  last_write ws k = None <-> ~ In k (map fst ws).
Proof.
  induction ws as [|[k' e] r IH]; simpl; [tauto|].
  destruct (last_write r k) eqn:E.
  - split; [discriminate|]. intros H. exfalso.
    assert (Hr : ~ In k (map fst r)) by tauto.
    apply IH in Hr. discriminate.
  - destruct (String.eqb_spec k' k) as [->|Hne].
    + split; [discriminate | tauto].
    + split; [|reflexivity]. intros _ [H|H]; [congruence|].
      now apply IH in H.
Qed.

Lemma lookup_write_all (ws : props) :
  forall o k,
    lookup k (write_all ws o)
    = match last_write ws k with
      | Some e => Some e
      | None => lookup k o
      end.
Proof.
  unfold write_all. induction ws as [|[k' e'] r IH]; simpl; intros o k;
    [reflexivity|].
  rewrite IH. destruct (last_write r k); [reflexivity|].
  destruct (String.eqb_spec k' k) as [->|Hne].
  - apply lookup_obj_set_same.
  - apply lookup_obj_set_other. congruence.
Qed.

(** Writes whose final values the object already holds change nothing. *)
Lemma write_all_fixpoint (ws : props) :
  forall o,
    (forall k e, last_write ws k = Some e -> lookup k o = Some e) ->
    write_all ws o = o.
Proof.
  induction ws as [|[k e] r IH]; intros o H; [reflexivity|].
  change (write_all ((k, e) :: r) o) with (write_all r (obj_set o k e)).
  assert (Hr : forall k' e', last_write r k' = Some e' -> lookup k' o = Some e').
  { intros k' e' Hl. apply H. simpl. now rewrite Hl. }
  destruct (in_dec string_dec k (map fst r)) as [Hin|Hnin].
  - rewrite write_all_overwritten; [now apply IH | assumption |].
    destruct (last_write r k) as [x|] eqn:E.
    + specialize (Hr _ _ E). apply lookup_In in Hr.
      apply in_map_iff. now exists (k, x).
    + apply last_write_None in E. contradiction.
  - apply last_write_None in Hnin.
    assert (Hk : lookup k o = Some e).
    { apply H. simpl. now rewrite Hnin, String.eqb_refl. }
    rewrite (obj_set_same_value _ _ _ Hk). now apply IH.
Qed.

Lemma write_all_idempotent (ws o : props) :
  write_all ws (write_all ws o) = write_all ws o.
Proof.
  apply write_all_fixpoint. intros k e H.
  now rewrite lookup_write_all, H.
Qed.

Lemma write_all_app (a b o : props) :
  write_all (a ++ b)%list o = write_all b (write_all a o).
Proof. apply fold_left_app. Qed.

(** On well-shaped stacks the merge loop is the list of its writes. *)
Lemma merge_entries_writes sr keys :
  is_nullish sr = false ->
  Forall (fun key => is_nullish (prop sr key) = false) keys ->
  forall o,
    merge_entries sr keys (VObj o)
    = (VObj (write_all
               (filter_map (fun key => match entry_if_bucket sr key with
                                       | Some e => Some (key, e)
                                       | None => None
                                       end) keys) o),
       None).
Proof.
  intros Hsr. induction 1 as [|key rest Hk Hrest IH]; simpl; intros o;
    [reflexivity|].
  unfold merge_entry, entry_if_bucket.
  rewrite (get_prop_ok sr) by assumption. simpl.
  rewrite get_prop_ok by assumption. simpl.
  destruct (strict_eq_str (prop (prop sr key) "Type") bucket_type) eqn:E; simpl.
  - rewrite IH. unfold entry_if_bucket. reflexivity.
  - rewrite IH. unfold entry_if_bucket. reflexivity.
Qed.

Lemma merge_stack_writes stack o :
  stack_ok stack = true ->
  merge_stack stack (VObj o) = (VObj (write_all (stack_writes stack) o), None).
Proof.
  unfold stack_ok, merge_stack, stack_writes. intros H.
  apply andb_true_iff in H. destruct H as [Hs H].
  apply negb_true_iff in Hs. rewrite get_prop_ok by assumption.
  destruct (truthy (prop stack "Resources")) eqn:Ht; simpl in H; [|reflexivity].
  assert (Hn := truthy_not_nullish _ Ht).
  rewrite Object_keys_ok by assumption.
  apply merge_entries_writes; [assumption|].
  rewrite forallb_forall in H. rewrite Forall_forall. intros key Hin.
  apply negb_true_iff. apply H. unfold entries_of. now apply in_map.
Qed.

Lemma merge_stacks_writes stacks :
  forallb stack_ok stacks = true ->
  forall o,
    merge_stacks stacks (VObj o)
    = (VObj (write_all (all_writes stacks) o), None).
Proof.
  induction stacks as [|stack rest IH]; simpl; intros H o; [reflexivity|].
  apply andb_true_iff in H. destruct H as [Hs Hrest].
  rewrite (merge_stack_writes _ _ Hs), (IH Hrest).
  unfold all_writes. simpl. now rewrite write_all_app.
Qed.

Lemma resource_mapping_write_through (s : service) (r r' : value) :
  resource_mapping s = Ok (r, true) ->
  truthy r' = true ->
  resource_mapping (write_through s r') = Ok (r', true).
Proof.
  intros H Ht. destruct (resource_mapping_aliased s r H) as [o [Ho Hl]].
  unfold write_through. rewrite Ho.
  unfold resource_mapping, js_and_then. simpl.
  unfold get_own. rewrite lookup_obj_set_same. simpl. now rewrite Ht.
Qed.

End Twice.

(** X16.  Resolving twice is resolving once.  With the extension present, a
    template mapping that is an object and well-shaped stacks, a second
    [buckets()] on the service the first one left returns the same result as
    the first and writes nothing more: the merge has already put every
    secondary bucket in place.  ([startHandler] is registered for three hooks,
    each of which resolves the buckets again.) *)
Theorem buckets_twice_is_once
  (s : service) (o : props) (aliased : bool) (stacks : list value) :
  resource_mapping s = Ok (VObj o, aliased) ->
  hasAdditionalStacksPlugin s = Ok true ->
  getAdditionalStacks s = Ok stacks ->
  forallb stack_ok stacks = true ->
  buckets (snd (buckets s)) = buckets s.
Proof.
  intros Hm Hp Hg Hok.
  assert (Hb : buckets s
               = (named_buckets (VObj (write_all (all_writes stacks) o)),
                  if aliased
                  then write_through s (VObj (write_all (all_writes stacks) o))
                  else s)).
  { unfold buckets. now rewrite Hm, Hp, Hg, (merge_stacks_writes _ Hok). }
  rewrite Hb. simpl. destruct aliased; [|exact Hb].
  assert (Hm' := resource_mapping_write_through s (VObj o)
                   (VObj (write_all (all_writes stacks) o)) Hm eq_refl).
  destruct (resource_mapping_aliased s _ Hm) as [os [Hos _]].
  unfold buckets. rewrite Hm'.
  replace (hasAdditionalStacksPlugin
             (write_through s (VObj (write_all (all_writes stacks) o))))
    with (hasAdditionalStacksPlugin s)
    by (unfold hasAdditionalStacksPlugin, write_through; now rewrite Hos).
  replace (getAdditionalStacks
             (write_through s (VObj (write_all (all_writes stacks) o))))
    with (getAdditionalStacks s)
    by (unfold getAdditionalStacks, write_through; now rewrite Hos).
  rewrite Hp, Hg, (merge_stacks_writes _ Hok), write_all_idempotent.
  now rewrite (write_through_same _ _ Hm').
Qed.

(** Two stacks that both declare [R1]: the first call leaves the second
    stack's entry in the template, and the second call, which writes the
    first stack's entry over it before restoring it, ends in the same
    service with the same names. *)
Lemma buckets_twice_two_stacks :
  buckets (snd (buckets two_stacks_service)) = buckets two_stacks_service
  /\ fst (buckets two_stacks_service) = Ok [VStr "second"; VStr "ninth"].
Proof.
  split; [|reflexivity].
  apply (buckets_twice_is_once two_stacks_service
           [("R1", bucket_resource (VStr "logs"))] true
           [prop (prop (custom two_stacks_service) "additionalStacks") "first";
            prop (prop (custom two_stacks_service) "additionalStacks") "second"]);
    reflexivity.
Defined.

(** X17.  What a start leaves of the plugin: the run options are never
    written, and the service afterwards is exactly the service [buckets()]
    left, on every path (also when the promise is rejected or pending);
    nothing else of the plugin but the handle can differ. *)
Theorem start_changes_service_only_through_buckets (w : env) (p : plugin) :
  options (fst (fst (startHandler w p))) = options p
  /\ svc (fst (fst (startHandler w p))) = snd (buckets (svc p)).
Proof.
  destruct (startHandler w p) as [[p' tr] out] eqn:E. simpl.
  split; [apply (startHandler_options _ _ _ _ _ E)|].
  unfold startHandler in E. rewrite service_config_total in E.
  start_paths E; reflexivity.
Qed.
